(** * OpenIFEM: the hyperelastic solid solver and the FSI coupling

    A shallow embedding of [hyperelasticSolver.cpp] and [source/fsi.cpp].

    Scalars ([double] in the sources) are the elements of an arbitrary
    ordered field [R], so every statement below is a statement in exact
    arithmetic.  [Tensor<1,dim>] and [Point<dim>] are column vectors,
    [Tensor<2,dim>] and [SymmetricTensor<2,dim>] are square matrices over
    [R]; [std::vector] is [seq], read with [nth] and written with
    [set_nth].  An index out of range, which is undefined behaviour in
    C++, reads the default value and extends the vector; the statements
    that depend on an index being in range say so.

    A failed deal.II [Assert] (debug build) or [AssertThrow] ends the
    computation; fallible code therefore lives in the [result] monad. *)

Set Warnings "-notation-overridden,-ambiguous-paths".
From HB Require Import structures.
From Stdlib Require Import String.
From mathcomp Require Import boot order algebra.

Set Warnings "-notation-for-abbreviation,-rewrite-rw".
Set Implicit Arguments.
Unset Strict Implicit.
Unset Printing Implicit Defensive.

Import GRing.Theory Num.Theory Order.Theory.
Local Open Scope ring_scope.

(** ** Exceptions and the error monad *)

Inductive exc : Type :=
| ExcInternalError
| ExcNotImplemented
| ExcMessage of string
| ExcPointNotFound
| NullPointer.

Inductive result (A : Type) : Type :=
| Ok of A
| Raise of exc.

Arguments Ok {A} _.
Arguments Raise {A} _.

Definition bind {A B : Type} (r : result A) (k : A -> result B) : result B :=
  match r with
  | Ok a => k a
  | Raise e => Raise e
  end.

Notation "x <- r ;; k" := (bind r (fun x => k))
  (at level 100, r at next level, right associativity).

Definition is_ok {A : Type} (r : result A) : bool :=
  if r is Ok _ then true else false.

Definition res_map {A B : Type} (h : A -> B) (r : result A) : result B :=
  match r with
  | Ok a => Ok (h a)
  | Raise e => Raise e
  end.

(** Loops whose body can throw. *)
Fixpoint foldM (A B : Type) (f : A -> B -> result A) (a : A) (l : seq B)
  : result A :=
  if l is x :: l' then a' <- f a x ;; foldM f a' l' else Ok a.

Fixpoint mapM (A B : Type) (f : A -> result B) (l : seq A) : result (seq B) :=
  if l is x :: l' then y <- f x ;; ys <- mapM f l' ;; Ok (y :: ys)
  else Ok [::].

(** The body of a loop that writes entry [q] of a vector in pass [q]. *)
Definition fill (T : Type) (x0 : T) (g : nat -> result T) (ptr : seq T)
    (q : nat) : result (seq T) :=
  p <- g q ;; Ok (set_nth x0 ptr q p).

(** ** Quadrature point history ([hyperelasticSolver.cpp], lines 5-39) *)

Section Parameters.

Variable R : realFieldType.
Variable dim : nat.

(** The part of [Parameters::AllParameters] read by the two source files. *)
Record AllParameters : Type := mkAllParameters {
  type : string;
  C : seq R;
  rho : R;
  max_iterations_NR : nat;
  tol_u : R;
  tol_f : R;
  viscosity : R;
  gravity : 'cV[R]_dim
}.

End Parameters.

Section PointHistory.

Variable R : realFieldType.
Variable dim : nat.

(** [dealii::SymmetricTensor<4,dim>], the type of the tangent modulus. *)
Variable Tensor4 : Type.

(** [dealii::invert] on rank-2 tensors. *)
Variable invert : 'M[R]_dim -> 'M[R]_dim.

(** The constitutive law of the Neo-Hookean model: Kirchhoff stress, tangent
    modulus and the two derivatives of the volumetric energy, as functions
    of the two constructor arguments and of the deformation gradient. *)
Record Constitutive : Type := mkConstitutive {
  tau_of : R -> R -> 'M[R]_dim -> 'M[R]_dim;
  Jc_of : R -> R -> 'M[R]_dim -> Tensor4;
  dPsi_vol_dJ_of : R -> R -> 'M[R]_dim -> R;
  d2Psi_vol_dJ2_of : R -> R -> 'M[R]_dim -> R
}.

Variable law : Constitutive.

(** Modelled from the spec: class [NeoHookean] is declared in a header that
    is not among the sources.  It is built from a shear modulus and a
    density; [updateData(F)] stores [F] and the quantities derived from it,
    and fails fatally, as an internal-consistency violation, when the
    Jacobian [det F] is not positive; the accessors fail fatally when
    [updateData] has never been called. *)
Record NeoHookean : Type := mkNeoHookean {
  nh_mu : R;
  nh_rho : R;
  nh_F : option 'M[R]_dim
}.

Definition NeoHookean_new (mu rho : R) : NeoHookean := mkNeoHookean mu rho None.

Definition updateData (F : 'M[R]_dim) (m : NeoHookean) : result NeoHookean :=
  if 0 < \det F then Ok (mkNeoHookean (nh_mu m) (nh_rho m) (Some F))
  else Raise ExcInternalError.

Definition accessor (A : Type) (f : R -> R -> 'M[R]_dim -> A) (m : NeoHookean)
  : result A :=
  if nh_F m is Some F then Ok (f (nh_mu m) (nh_rho m) F)
  else Raise ExcInternalError.

Definition getTau : NeoHookean -> result 'M[R]_dim := accessor (tau_of law).
Definition getJc : NeoHookean -> result Tensor4 := accessor (Jc_of law).
Definition get_dPsi_vol_dJ : NeoHookean -> result R :=
  accessor (dPsi_vol_dJ_of law).
Definition get_d2Psi_vol_dJ2 : NeoHookean -> result R :=
  accessor (d2Psi_vol_dJ2_of law).

(** [PointHistory<dim>]: [material] is a shared pointer, [None] when null.
    Neo-Hookean is the only model, so the dynamic cast of a non-null
    pointer succeeds. *)
Record PointHistory : Type := mkPointHistory {
  material : option NeoHookean;
  FInv : 'M[R]_dim;
  tau : 'M[R]_dim;
  Jc : Tensor4;
  dPsi_vol_dJ : R;
  d2Psi_vol_dJ2 : R
}.

(** [dealii::Physics::Elasticity::Kinematics::F]. *)
Definition Kinematics_F (Grad_u : 'M[R]_dim) : 'M[R]_dim := 1%:M + Grad_u.

(** [PointHistory::update], lines 22-39. *)
Definition update (Grad_u : 'M[R]_dim) (this : PointHistory)
  : result PointHistory :=
  let F := Kinematics_F Grad_u in
  if material this is Some m then
    m' <- updateData F m ;;
    let FInv' := invert F in
    tau' <- getTau m' ;;
    Jc' <- getJc m' ;;
    dPsi' <- get_dPsi_vol_dJ m' ;;
    d2Psi' <- get_d2Psi_vol_dJ2 m' ;;
    Ok (mkPointHistory (Some m') FInv' tau' Jc' dPsi' d2Psi')
  else Raise NullPointer.

(** The state [update] leaves behind is a function of the material
    constants and of the displacement gradient alone. *)
Definition updated (m : NeoHookean) (Grad_u : 'M[R]_dim) : PointHistory :=
  let F := 1%:M + Grad_u in
  mkPointHistory (Some (mkNeoHookean (nh_mu m) (nh_rho m) (Some F)))
    (invert F) (tau_of law (nh_mu m) (nh_rho m) F)
    (Jc_of law (nh_mu m) (nh_rho m) F)
    (dPsi_vol_dJ_of law (nh_mu m) (nh_rho m) F)
    (d2Psi_vol_dJ2_of law (nh_mu m) (nh_rho m) F).

(** [PointHistory::setup], lines 5-20.  [nh] is a local copy of the shared
    pointer: [nh.reset(new NeoHookean(...))] re-seats the copy, and
    [this->material] keeps pointing to the object it pointed to. *)
Definition setup (parameters : AllParameters R dim) (this : PointHistory)
  : result PointHistory :=
  if (type parameters =? "NeoHookean")%string then
    if material this is Some _ then
      if C parameters is c0 :: _ then
        let nh := Some (NeoHookean_new c0 (rho parameters)) in
        update 0 this
      else Raise ExcInternalError
    else Raise ExcInternalError
  else Raise ExcNotImplemented.

(** The deformation gradient held by the material of a point. *)
Definition stored_F (this : PointHistory) : option 'M[R]_dim :=
  if material this is Some m then nh_F m else None.

End PointHistory.

(** ** The Newton iteration of one time step
      ([hyperelasticSolver.cpp], lines 351-422) *)

Section NonlinearSolver.

Variable R : realFieldType.
Variable dim : nat.

(** [Errors]: a norm and the norm of the displacement component. *)
Record Errors : Type := mkErrors {
  norm : R;
  u : R
}.

(** [W] stands for the members of the solver that assembly and the linear
    solve work on (tangent matrix, right-hand side, constraints, solution,
    quadrature point data), [V] for [Vector<double>]. *)
Variables W V : Type.

(** The members of [Errors] and of [HyperelasticSolver] that the time step
    calls and that the source file does not define. *)
Record Assembly : Type := mkAssembly {
  Errors_reset : Errors;
  normalize : Errors -> Errors -> Errors;
  zero_vector : W -> V;
  set_zero : W -> W;
  assembleGlobalRHS : W -> W;
  getErrorResidual : W -> Errors;
  assembleGlobalTangent : W -> W;
  make_constraints : nat -> W -> W;
  condense : W -> W;
  solveLinearSystem : V -> W -> V * W;
  getErrorUpdate : V -> W -> Errors;
  vector_add : V -> V -> V;
  updateGlobalQPH : V -> W -> W
}.

Variable fem : Assembly.
Variable parameters : AllParameters R dim.

(** The state the loop works on: the solver members, the six error
    records, the argument [solution_delta] and the local [newton_update]. *)
Record HyperelasticSolver : Type := mkHyperelasticSolver {
  system : W;
  solution_delta : V;
  newton_update : V;
  errorResidual : Errors;
  errorResidual0 : Errors;
  errorResidualNorm : Errors;
  errorUpdate : Errors;
  errorUpdate0 : Errors;
  errorUpdateNorm : Errors
}.

(** What one pass through the loop body ends with: [break], or the end of
    the body. *)
Inductive iteration : Type :=
| Break of HyperelasticSolver
| Continue of HyperelasticSolver.

Definition state_of (it : iteration) : HyperelasticSolver :=
  match it with Break s => s | Continue s => s end.

Definition is_break (it : iteration) : bool :=
  if it is Break _ then true else false.

(** The loop body, lines 371-417, at the value [newton_iteration] of the
    counter. *)
Definition newton_body (newton_iteration : nat) (s : HyperelasticSolver)
  : iteration :=
  let sys1 := assembleGlobalRHS fem (set_zero fem (system s)) in
  let eR := getErrorResidual fem sys1 in
  let eR0 := if newton_iteration == 0%N then eR else errorResidual0 s in
  let eRN := normalize fem eR eR0 in
  if [&& (0 < newton_iteration)%N,
         norm (errorUpdateNorm s) <= tol_u parameters &
         norm eRN <= tol_f parameters]
  then
    Break (mkHyperelasticSolver sys1 (solution_delta s) (newton_update s)
             eR eR0 eRN (errorUpdate s) (errorUpdate0 s) (errorUpdateNorm s))
  else
    let sys2 :=
      condense fem
        (make_constraints fem newton_iteration
           (assembleGlobalTangent fem sys1)) in
    let: (nu, sys3) := solveLinearSystem fem (newton_update s) sys2 in
    let eU := getErrorUpdate fem nu sys3 in
    let eU0 := if newton_iteration == 0%N then eU else errorUpdate0 s in
    let eUN := normalize fem eU eU0 in
    let delta := vector_add fem (solution_delta s) nu in
    let sys4 := updateGlobalQPH fem delta sys3 in
    Continue (mkHyperelasticSolver sys4 delta nu eR eR0 eRN eU eU0 eUN).

(** The [for] loop of line 369: [fuel] is the number of values the counter
    can still take; the loop returns the counter and the state it ends
    with. *)
Fixpoint newton_loop (fuel newton_iteration : nat) (s : HyperelasticSolver)
  : nat * HyperelasticSolver :=
  if fuel is fuel'.+1 then
    match newton_body newton_iteration s with
    | Break s' => (newton_iteration, s')
    | Continue s' => newton_loop fuel' newton_iteration.+1 s'
    end
  else (newton_iteration, s).

Definition no_convergence : exc :=
  ExcMessage "No convergence in nonlinear solver!".

(** The state the loop starts from: line 357 and the resets of lines
    359-364. *)
Definition newton_init (sys : W) (solution_delta : V) : HyperelasticSolver :=
  let e := Errors_reset fem in
  mkHyperelasticSolver sys solution_delta (zero_vector fem sys) e e e e e e.

(** [HyperelasticSolver::solveNonlinearTimestep]. *)
Definition solveNonlinearTimestep (sys : W) (solution_delta : V)
  : result HyperelasticSolver :=
  let: (newton_iteration, s) :=
    newton_loop (max_iterations_NR parameters) 0
      (newton_init sys solution_delta)
  in
  if (newton_iteration < max_iterations_NR parameters)%N then Ok s
  else Raise no_convergence.

(** The state at the head of the loop body when the counter is [k], and the
    two errors measured in the body at that value of the counter. *)
Fixpoint state_at (s0 : HyperelasticSolver) (k : nat) : HyperelasticSolver :=
  if k is j.+1 then state_of (newton_body j (state_at s0 j)) else s0.

Definition residual_error (s0 : HyperelasticSolver) (k : nat) : Errors :=
  getErrorResidual fem
    (assembleGlobalRHS fem (set_zero fem (system (state_at s0 k)))).

Definition update_error (s0 : HyperelasticSolver) (k : nat) : Errors :=
  errorUpdate (state_at s0 k.+1).

(** The convergence test of lines 386-387, on the errors of the run. *)
Definition converged_at (s0 : HyperelasticSolver) (k : nat) : bool :=
  [&& (0 < k)%N,
      norm (normalize fem (update_error s0 k.-1) (update_error s0 0))
        <= tol_u parameters &
      norm (normalize fem (residual_error s0 k) (residual_error s0 0))
        <= tol_f parameters].

End NonlinearSolver.

(** ** The two solvers as the FSI coupling sees them *)

(** [GeometryInfo<dim>]. *)
Definition vertices_per_cell (dim : nat) : nat := (2 ^ dim)%N.
Definition faces_per_cell (dim : nat) : nat := (2 * dim)%N.

(** [ptr[i]->member = ...]: the object at index [i] of a vector of
    pointers is changed in place. *)
Definition assign (T : Type) (x0 : T) (ptr : seq T) (i : nat) (f : T -> T)
  : seq T :=
  set_nth x0 ptr i (f (nth x0 ptr i)).

Module Solid.
Section Solid.

Variable R : realFieldType.
Variable dim : nat.

(** An active cell of the solid mesh: the global index of its local vertex
    [v], the index of the degree of freedom of component [d] at [v], and for
    its face [f] whether it lies on the boundary and its boundary id. *)
Record Cell : Type := mkCell {
  vertex_index : nat -> nat;
  vertex_dof_index : nat -> nat -> nat;
  at_boundary : nat -> bool;
  boundary_id : nat -> nat
}.

Record CellProperty : Type := mkCellProperty {
  fsi_traction : 'cV[R]_dim
}.

Definition CellProperty0 : CellProperty := mkCellProperty 0.

Definition Cell0 : Cell :=
  mkCell (fun _ => 0%N) (fun _ _ => 0%N) (fun _ => false) (fun _ => 0%N).

(** [triangulation] is the vector of vertex positions; [dof_handler] the
    sequence of active cells; [stress i j] is the vector [stress[i][j]];
    [cell_property] has one row per active cell. *)
Record SolidSolver : Type := mkSolidSolver {
  triangulation : seq 'cV[R]_dim;
  dof_handler : seq Cell;
  current_displacement : seq R;
  current_acceleration : seq R;
  stress : nat -> nat -> seq R;
  cell_property : seq (seq CellProperty);
  n_face_q_points : nat
}.

Definition set_triangulation (s : SolidSolver) (vs : seq 'cV[R]_dim)
  : SolidSolver :=
  mkSolidSolver vs (dof_handler s) (current_displacement s)
    (current_acceleration s) (stress s) (cell_property s) (n_face_q_points s).

Definition set_cell_property (s : SolidSolver) (cp : seq (seq CellProperty))
  : SolidSolver :=
  mkSolidSolver (triangulation s) (dof_handler s) (current_displacement s)
    (current_acceleration s) (stress s) cp (n_face_q_points s).

End Solid.
End Solid.

Module Fluid.
Section Fluid.

Variable R : realFieldType.
Variable dim : nat.

(** An active cell of the fluid mesh, which never moves: the position of
    its local vertex [v]. *)
Record Cell : Type := mkCell {
  vertex : nat -> 'cV[R]_dim
}.

Record CellProperty : Type := mkCellProperty {
  indicator : bool;
  fsi_acceleration : 'cV[R]_dim;
  fsi_stress : 'M[R]_dim
}.

Definition CellProperty0 : CellProperty := mkCellProperty false 0 0.

Definition Cell0 : Cell := mkCell (fun _ => 0).

(** [BlockVector<double>]: the velocity block and the pressure block. *)
Definition BlockVector : Type := seq (seq R).

Record FluidSolver : Type := mkFluidSolver {
  dof_handler : seq Cell;
  present_solution : BlockVector;
  solution_increment : BlockVector;
  cell_property : seq (seq CellProperty);
  n_q_points : nat
}.

Definition set_cell_property (s : FluidSolver) (cp : seq (seq CellProperty))
  : FluidSolver :=
  mkFluidSolver (dof_handler s) (present_solution s) (solution_increment s)
    cp (n_q_points s).

Definition set_solution (s : FluidSolver) (sol inc : BlockVector)
  : FluidSolver :=
  mkFluidSolver (dof_handler s) sol inc (cell_property s) (n_q_points s).

End Fluid.
End Fluid.

(** ** The FSI coupling ([source/fsi.cpp]) *)

Section FSI.

Variable R : realFieldType.
Variable dim : nat.

(** What the coupling asks of deal.II and of [Utils::GridInterpolator]:
    - [point_inside vs cell p] is [cell->point_inside(p)] when the vertices
      of the solid mesh are at [vs];
    - [quadrature_point], [get_function_values], [get_function_gradients],
      [get_function_symmetric_gradients] and [get_pressure_values] are the
      [FEValues] of the fluid after [reinit(f_cell)], read at point [q];
    - [point_value] and [scalar_point_value] are [VectorTools::point_value]
      on the vector-valued and on the scalar solid [DoFHandler]; they throw
      when no cell of the mesh holds the point;
    - [face_quadrature_point] and [normal_vector] are the [FEFaceValues] of
      the solid after [reinit(s_cell, f)];
    - [interpolator_point_value] and [interpolator_point_gradient] are the
      two queries of a [GridInterpolator] built on the fluid mesh. *)
Record Interpolation : Type := mkInterpolation {
  point_inside : seq 'cV[R]_dim -> Solid.Cell -> 'cV[R]_dim -> bool;
  quadrature_point : Fluid.Cell R dim -> nat -> 'cV[R]_dim;
  get_function_values :
    Fluid.BlockVector R -> Fluid.Cell R dim -> nat -> 'cV[R]_dim;
  get_function_gradients :
    Fluid.BlockVector R -> Fluid.Cell R dim -> nat -> 'M[R]_dim;
  get_function_symmetric_gradients :
    Fluid.BlockVector R -> Fluid.Cell R dim -> nat -> 'M[R]_dim;
  get_pressure_values : Fluid.BlockVector R -> Fluid.Cell R dim -> nat -> R;
  point_value :
    seq 'cV[R]_dim -> seq Solid.Cell -> seq R -> 'cV[R]_dim -> result (seq R);
  scalar_point_value :
    seq 'cV[R]_dim -> seq Solid.Cell -> seq R -> 'cV[R]_dim -> result (seq R);
  face_quadrature_point :
    seq 'cV[R]_dim -> Solid.Cell -> nat -> nat -> 'cV[R]_dim;
  normal_vector : seq 'cV[R]_dim -> Solid.Cell -> nat -> nat -> 'cV[R]_dim;
  interpolator_point_value :
    seq (Fluid.Cell R dim) -> Fluid.BlockVector R -> 'cV[R]_dim -> seq R;
  interpolator_point_gradient :
    seq (Fluid.Cell R dim) -> Fluid.BlockVector R -> 'cV[R]_dim ->
    seq 'cV[R]_dim
}.

Variable fe : Interpolation.

(** [FSI<dim>]; [delta_t] is [time.get_delta_t()]. *)
Record FSI : Type := mkFSI {
  fluid_solver : Fluid.FluidSolver R dim;
  solid_solver : Solid.SolidSolver R dim;
  parameters : AllParameters R dim;
  delta_t : R
}.

Definition set_fluid_solver (fsi : FSI) (f : Fluid.FluidSolver R dim) : FSI :=
  mkFSI f (solid_solver fsi) (parameters fsi) (delta_t fsi).

Definition set_solid_solver (fsi : FSI) (s : Solid.SolidSolver R dim) : FSI :=
  mkFSI (fluid_solver fsi) s (parameters fsi) (delta_t fsi).

(** *** [FSI::move_solid_mesh], lines 20-51 *)

(** Lines 34-39. *)
Definition vertex_displacement (current_displacement : seq R)
    (cell : Solid.Cell) (v : nat) : 'cV[R]_dim :=
  \col_(d < dim) nth 0 current_displacement (Solid.vertex_dof_index cell v d).

(** Lines 31-48: the body of the loop on [v], on the pair of
    [vertex_touched] and the vertex positions. *)
Definition move_vertex (move_forward : bool) (current_displacement : seq R)
    (cell : Solid.Cell) (st : seq bool * seq 'cV[R]_dim) (v : nat)
  : seq bool * seq 'cV[R]_dim :=
  let i := Solid.vertex_index cell v in
  if nth false st.1 i then st
  else
    let d := vertex_displacement current_displacement cell v in
    (set_nth false st.1 i true,
     assign 0 st.2 i (fun x => if move_forward then x + d else x - d)).

Definition move_cell (move_forward : bool) (current_displacement : seq R)
    (st : seq bool * seq 'cV[R]_dim) (cell : Solid.Cell)
  : seq bool * seq 'cV[R]_dim :=
  foldl (move_vertex move_forward current_displacement cell) st
    (iota 0 (vertices_per_cell dim)).

Definition move_vertices (move_forward : bool) (s : Solid.SolidSolver R dim)
  : seq 'cV[R]_dim :=
  let vertex_touched := nseq (size (Solid.triangulation s)) false in
  (foldl (move_cell move_forward (Solid.current_displacement s))
     (vertex_touched, Solid.triangulation s) (Solid.dof_handler s)).2.

Definition move_solid_mesh (move_forward : bool) (fsi : FSI) : FSI :=
  let s := solid_solver fsi in
  set_solid_solver fsi
    (Solid.set_triangulation s (move_vertices move_forward s)).

(** Every vertex index of every active cell is an index of the vertex
    vector of the triangulation. *)
Definition mesh_ok (s : Solid.SolidSolver R dim) : bool :=
  all (fun cell =>
         all (fun v =>
                (Solid.vertex_index cell v < size (Solid.triangulation s))%N)
           (iota 0 (vertices_per_cell dim)))
    (Solid.dof_handler s).

(** The forward and the backward pass, run side by side from the same
    [vertex_touched]: they touch the same vertices, keep the number of
    vertices, and keep the sum of the two positions of every vertex. *)
Definition mirror (V W : seq 'cV[R]_dim)
    (st1 st2 : seq bool * seq 'cV[R]_dim) : Prop :=
  [/\ st1.1 = st2.1, size st1.2 = size V, size st2.2 = size W &
      forall i, nth 0 st1.2 i + nth 0 st2.2 i = nth 0 V i + nth 0 W i].

(** *** [FSI::point_in_mesh], lines 53-64 *)

Fixpoint point_in_cells (vs : seq 'cV[R]_dim) (cells : seq Solid.Cell)
    (point : 'cV[R]_dim) : bool :=
  if cells is cell :: cells' then
    if point_inside fe vs cell point then true
    else point_in_cells vs cells' point
  else false.

Definition point_in_mesh (df : Solid.SolidSolver R dim) (point : 'cV[R]_dim)
  : bool :=
  point_in_cells (Solid.triangulation df) (Solid.dof_handler df) point.

(** *** [FSI::update_indicator], lines 103-133 *)

(** Lines 117-126: the loop on the vertices of a fluid cell, left at the
    first vertex outside the solid. *)
Fixpoint vertices_in_solid (df : Solid.SolidSolver R dim)
    (f_cell : Fluid.Cell R dim) (vs : seq nat) : bool :=
  if vs is v :: vs' then
    if ~~ point_in_mesh df (Fluid.vertex f_cell v) then false
    else vertices_in_solid df f_cell vs'
  else true.

Definition set_indicator (b : bool) (p : Fluid.CellProperty R dim)
  : Fluid.CellProperty R dim :=
  Fluid.mkCellProperty b (Fluid.fsi_acceleration p) (Fluid.fsi_stress p).

Definition update_indicator_cell (fsi : FSI) (f_cell : Fluid.Cell R dim)
    (p : seq (Fluid.CellProperty R dim)) : seq (Fluid.CellProperty R dim) :=
  let is_solid :=
    vertices_in_solid (solid_solver fsi) f_cell
      (iota 0 (vertices_per_cell dim)) in
  foldl (fun p q => assign (Fluid.CellProperty0 R dim) p q
                      (set_indicator is_solid))
    p (iota 0 (Fluid.n_q_points (fluid_solver fsi))).

(** A loop on the active cells that works on the row of each cell in the
    cell data storage. *)
Definition for_cells (Cell Data : Type) (body : Cell -> seq Data -> seq Data)
    (cells : seq Cell) (storage : seq (seq Data)) : seq (seq Data) :=
  [seq body c.1 c.2 | c <- zip cells storage].

Definition update_indicator (fsi : FSI) : FSI :=
  let fsi1 := move_solid_mesh true fsi in
  let fl := fluid_solver fsi1 in
  let cp :=
    for_cells (update_indicator_cell fsi1) (Fluid.dof_handler fl)
      (Fluid.cell_property fl) in
  move_solid_mesh false (set_fluid_solver fsi1 (Fluid.set_cell_property fl cp)).

(** *** [FSI::find_fluid_bc], lines 137-215 *)

Definition set_fsi_acceleration (a : 'cV[R]_dim) (p : Fluid.CellProperty R dim)
  : Fluid.CellProperty R dim :=
  Fluid.mkCellProperty (Fluid.indicator p) a (Fluid.fsi_stress p).

Definition set_fsi_stress (s : 'M[R]_dim) (p : Fluid.CellProperty R dim)
  : Fluid.CellProperty R dim :=
  Fluid.mkCellProperty (Fluid.indicator p) (Fluid.fsi_acceleration p) s.

(** Lines 196-208.  The entries [i][j] and [j][i] of a [SymmetricTensor]
    are one object, so the value that stays is the one written last, in
    the pass with the larger index outside. *)
Definition solid_sigma (s : Solid.SolidSolver R dim) (point : 'cV[R]_dim)
  : result 'M[R]_dim :=
  rows <- mapM (fun i =>
            mapM (fun j =>
              sigma_ij <- scalar_point_value fe (Solid.triangulation s)
                            (Solid.dof_handler s) (Solid.stress s i j) point ;;
              Ok (nth 0 sigma_ij 0))
            (iota 0 dim))
          (iota 0 dim) ;;
  Ok (\matrix_(a < dim, b < dim) nth 0 (nth [::] rows (maxn a b)) (minn a b)).

(** Lines 173-212: the body of the loop on the quadrature points; [v] is
    the vector of line 152, which nothing fills. *)
Definition find_fluid_bc_point (fsi : FSI) (f_cell : Fluid.Cell R dim)
    (ptr : seq (Fluid.CellProperty R dim)) (q : nat)
  : result (seq (Fluid.CellProperty R dim)) :=
  let fl := fluid_solver fsi in
  let s := solid_solver fsi in
  let x0 := Fluid.CellProperty0 R dim in
  let dv := get_function_values fe (Fluid.solution_increment fl) f_cell q in
  let grad_v :=
    get_function_gradients fe (Fluid.present_solution fl) f_cell q in
  let sym_grad_v :=
    get_function_symmetric_gradients fe (Fluid.present_solution fl) f_cell q in
  let p := get_pressure_values fe (Fluid.present_solution fl) f_cell q in
  let v : 'cV[R]_dim := 0 in
  let point := quadrature_point fe f_cell q in
  let ptr := assign x0 ptr q (set_indicator (point_in_mesh s point)) in
  let ptr := assign x0 ptr q (set_fsi_acceleration 0) in
  let ptr := assign x0 ptr q (set_fsi_stress 0) in
  if ~~ Fluid.indicator (nth x0 ptr q) then Ok ptr
  else
    let fluid_acc := (delta_t fsi)^-1 *: dv + grad_v *m v in
    solid_acc <- point_value fe (Solid.triangulation s) (Solid.dof_handler s)
                   (Solid.current_acceleration s) point ;;
    let ptr :=
      assign x0 ptr q
        (set_fsi_acceleration
           (\col_(i < dim) (gravity (parameters fsi) i 0 - nth 0 solid_acc i)))
    in
    sigma <- solid_sigma s point ;;
    Ok (assign x0 ptr q
          (set_fsi_stress
             (- p *: 1%:M + viscosity (parameters fsi) *: sym_grad_v - sigma))).

(** What lines 176-211 leave in [ptr[q]], when they throw nothing. *)
Definition fsi_forces (fsi : FSI) (f_cell : Fluid.Cell R dim) (q : nat)
  : result (Fluid.CellProperty R dim) :=
  let fl := fluid_solver fsi in
  let s := solid_solver fsi in
  let sym_grad_v :=
    get_function_symmetric_gradients fe (Fluid.present_solution fl) f_cell q in
  let p := get_pressure_values fe (Fluid.present_solution fl) f_cell q in
  let point := quadrature_point fe f_cell q in
  if ~~ point_in_mesh s point then Ok (Fluid.mkCellProperty false 0 0)
  else
    solid_acc <- point_value fe (Solid.triangulation s) (Solid.dof_handler s)
                   (Solid.current_acceleration s) point ;;
    sigma <- solid_sigma s point ;;
    Ok (Fluid.mkCellProperty true
          (\col_(i < dim) (gravity (parameters fsi) i 0 - nth 0 solid_acc i))
          (- p *: 1%:M + viscosity (parameters fsi) *: sym_grad_v - sigma)).

(** Both interpolations of the solid fields at [point] return. *)
Definition interpolation_succeeds (s : Solid.SolidSolver R dim)
    (point : 'cV[R]_dim) : bool :=
  is_ok (point_value fe (Solid.triangulation s) (Solid.dof_handler s)
           (Solid.current_acceleration s) point)
  && is_ok (solid_sigma s point).

Definition find_fluid_bc_cell (fsi : FSI) (f_cell : Fluid.Cell R dim)
    (ptr : seq (Fluid.CellProperty R dim))
  : result (seq (Fluid.CellProperty R dim)) :=
  foldM (find_fluid_bc_point fsi f_cell) ptr
    (iota 0 (Fluid.n_q_points (fluid_solver fsi))).

Definition for_cellsM (Cell Data : Type)
    (body : Cell -> seq Data -> result (seq Data))
    (cells : seq Cell) (storage : seq (seq Data)) : result (seq (seq Data)) :=
  mapM (fun c => body c.1 c.2) (zip cells storage).

Definition find_fluid_bc (fsi : FSI) : result FSI :=
  let fsi1 := move_solid_mesh true fsi in
  let fl := fluid_solver fsi1 in
  cp <- for_cellsM (find_fluid_bc_cell fsi1) (Fluid.dof_handler fl)
          (Fluid.cell_property fl) ;;
  Ok (move_solid_mesh false
        (set_fluid_solver fsi1 (Fluid.set_cell_property fl cp))).

(** The accelerations stored at the quadrature points of the fluid. *)
Definition fsi_accelerations (fsi : FSI) : seq (seq 'cV[R]_dim) :=
  [seq [seq Fluid.fsi_acceleration p | p <- row]
  | row <- Fluid.cell_property (fluid_solver fsi)].

(** *** [FSI::find_solid_bc], lines 217-276 *)

(** Lines 246-270: the traction at quadrature point [q] of face [f]. *)
Definition face_traction (fsi : FSI) (s_cell : Solid.Cell) (f q : nat)
  : 'cV[R]_dim :=
  let fl := fluid_solver fsi in
  let vs := Solid.triangulation (solid_solver fsi) in
  let q_point := face_quadrature_point fe vs s_cell f q in
  let normal := normal_vector fe vs s_cell f q in
  let value :=
    interpolator_point_value fe (Fluid.dof_handler fl)
      (Fluid.present_solution fl) q_point in
  let gradient :=
    interpolator_point_gradient fe (Fluid.dof_handler fl)
      (Fluid.present_solution fl) q_point in
  let sym_deformation : 'M[R]_dim :=
    \matrix_(i, j) (((nth 0 gradient i) j 0 + (nth 0 gradient j) i 0) / 2) in
  let stress :=
    - nth 0 value dim *: 1%:M + viscosity (parameters fsi) *: sym_deformation in
  stress *m normal.

Definition set_fsi_traction (t : 'cV[R]_dim) (p : Solid.CellProperty R dim)
  : Solid.CellProperty R dim :=
  Solid.mkCellProperty t.

(** Lines 240-272: the body of the loop on the faces of a cell. *)
Definition find_solid_bc_face (fsi : FSI) (s_cell : Solid.Cell)
    (ptr : seq (Solid.CellProperty R dim)) (f : nat)
  : seq (Solid.CellProperty R dim) :=
  let n_face_q_points := Solid.n_face_q_points (solid_solver fsi) in
  if Solid.at_boundary s_cell f then
    foldl (fun ptr q =>
             assign (Solid.CellProperty0 R dim) ptr (f * n_face_q_points + q)%N
               (set_fsi_traction (face_traction fsi s_cell f q)))
      ptr (iota 0 n_face_q_points)
  else ptr.

Definition find_solid_bc_cell (fsi : FSI) (s_cell : Solid.Cell)
    (ptr : seq (Solid.CellProperty R dim)) : seq (Solid.CellProperty R dim) :=
  foldl (find_solid_bc_face fsi s_cell) ptr (iota 0 (faces_per_cell dim)).

Definition find_solid_bc (fsi : FSI) : FSI :=
  let fsi1 := move_solid_mesh true fsi in
  let s := solid_solver fsi1 in
  let cp :=
    for_cells (find_solid_bc_cell fsi1) (Solid.dof_handler s)
      (Solid.cell_property s) in
  move_solid_mesh false (set_solid_solver fsi1 (Solid.set_cell_property s cp)).

End FSI.

(** ** The rest of the coupling ([source/fsi.cpp]) *)

Definition set_current_displacement (R : realFieldType) (dim : nat)
    (s : Solid.SolidSolver R dim) (d : seq R) : Solid.SolidSolver R dim :=
  Solid.mkSolidSolver (Solid.triangulation s) (Solid.dof_handler s) d
    (Solid.current_acceleration s) (Solid.stress s) (Solid.cell_property s)
    (Solid.n_face_q_points s).

Section SolidDisplacement.

Variable R : realFieldType.
Variable dim : nat.

(** [VectorTools::point_value] on the [DoFHandler] of the fluid; it throws
    when no cell of the fluid mesh holds the point. *)
Variable fluid_point_value :
  seq (Fluid.Cell R dim) -> Fluid.BlockVector R -> 'cV[R]_dim ->
  result (seq R).

(** *** [FSI::update_solid_displacement], lines 66-95 *)

(** Lines 85-89: the loop on the components. *)
Definition add_velocity (dt : R) (cell : Solid.Cell) (v : nat) (tmp : seq R)
    (displacement : seq R) : seq R :=
  foldl (fun displacement d =>
           assign 0 displacement (Solid.vertex_dof_index cell v d)
             (fun x => x + nth 0 tmp d * dt))
    displacement (iota 0 dim).

(** Lines 76-90: the body of the loop on [v], on the pair of
    [vertex_touched] and the copy [displacement]. *)
Definition displace_vertex (fsi : FSI R dim) (cell : Solid.Cell)
    (st : seq bool * seq R) (v : nat) : result (seq bool * seq R) :=
  let fl := fluid_solver fsi in
  let i := Solid.vertex_index cell v in
  if nth false st.1 i then Ok st
  else
    let vertex_touched := set_nth false st.1 i true in
    let point := nth 0 (Solid.triangulation (solid_solver fsi)) i in
    tmp <- fluid_point_value (Fluid.dof_handler fl) (Fluid.present_solution fl)
             point ;;
    Ok (vertex_touched, add_velocity (delta_t fsi) cell v tmp st.2).

Definition displace_cell (fsi : FSI R dim) (st : seq bool * seq R)
    (cell : Solid.Cell) : result (seq bool * seq R) :=
  foldM (displace_vertex fsi cell) st (iota 0 (vertices_per_cell dim)).

(** [n_dofs] is [solid_solver.dof_handler.n_dofs()].  The mesh is moved
    back with the old displacement, which is replaced afterwards. *)
Definition update_solid_displacement (n_dofs : nat) (fsi : FSI R dim)
  : result (FSI R dim) :=
  let fsi1 := move_solid_mesh true fsi in
  let s := solid_solver fsi1 in
  st <- foldM (displace_cell fsi1)
          (nseq n_dofs false, Solid.current_displacement s)
          (Solid.dof_handler s) ;;
  let fsi2 := move_solid_mesh false fsi1 in
  Ok (set_solid_solver fsi2
        (set_current_displacement (solid_solver fsi2) st.2)).

(** Every degree of freedom of every vertex of every active cell is an
    index of the displacement vector. *)
Definition dofs_ok (s : Solid.SolidSolver R dim) : bool :=
  all (fun cell =>
         all (fun v =>
                all (fun d =>
                       (Solid.vertex_dof_index cell v d
                        < size (Solid.current_displacement s))%N)
                  (iota 0 dim))
           (iota 0 (vertices_per_cell dim)))
    (Solid.dof_handler s).

(** Some active cell of the solid names the vertex [i]. *)
Definition named (s : Solid.SolidSolver R dim) (i : nat) : bool :=
  has (fun cell =>
         has (fun v => Solid.vertex_index cell v == i)
           (iota 0 (vertices_per_cell dim)))
    (Solid.dof_handler s).

(** *** [FSI::refine_mesh], lines 283-295: the choice of the flag *)

(** [distance] is [Point::distance]; [f_center] and [s_center] are
    [center()] of a fluid cell and of a solid cell whose vertices are at
    [vs]. *)
Variable distance : 'cV[R]_dim -> 'cV[R]_dim -> R.
Variable f_center : Fluid.Cell R dim -> 'cV[R]_dim.
Variable s_center : seq 'cV[R]_dim -> Solid.Cell -> 'cV[R]_dim.

(** [std::min(a, b)] is [b] when [b < a] and [a] otherwise. *)
Definition std_min (a b : R) : R := if b < a then b else a.

(** Lines 286-290. *)
Definition solid_distance (s : Solid.SolidSolver R dim) (center : 'cV[R]_dim)
  : R :=
  foldl (fun dist s_cell =>
           std_min (distance center (s_center (Solid.triangulation s) s_cell))
             dist)
    1000 (Solid.dof_handler s).

(** Lines 283-295: [true] for [set_refine_flag], [false] for
    [set_coarsen_flag], for each active cell of the fluid. *)
Definition refine_flags (fsi : FSI R dim) : seq bool :=
  let fsi1 := move_solid_mesh true fsi in
  [seq solid_distance (solid_solver fsi1) (f_center f_cell) < 10^-1
  | f_cell <- Fluid.dof_handler (fluid_solver fsi1)].

End SolidDisplacement.

(** ** Scratch data and the update of the quadrature point history
      ([hyperelasticSolver.cpp], lines 153-185 and 333-349) *)

Section Scratch.

Variable R : realFieldType.
Variable dim : nat.

(** The two tables of [ScratchDataRHS] that [reset] works on. *)
Record ScratchDataRHS : Type := mkScratchDataRHS {
  Nx : seq (seq R);
  symm_grad_Nx : seq (seq 'M[R]_dim)
}.

(** Lines 178-182: the loop on [k], on row [q] of both tables. *)
Definition reset_row (numQuadPts q : nat) (s : ScratchDataRHS)
  : ScratchDataRHS :=
  foldl (fun s k =>
           mkScratchDataRHS
             (assign [::] (Nx s) q (fun row => set_nth 0 row k 0))
             (assign [::] (symm_grad_Nx s) q (fun row => set_nth 0 row k 0)))
    s (iota 0 numQuadPts).

(** [ScratchDataRHS::reset], lines 170-184. *)
Definition ScratchDataRHS_reset (s : ScratchDataRHS) : result ScratchDataRHS :=
  let numQuadPts := size (Nx s) in
  let dofsPerCell := size (nth [::] (Nx s) 0) in
  foldM (fun s q =>
           if size (nth [::] (Nx s) q) != dofsPerCell
           then Raise ExcInternalError
           else if size (nth [::] (symm_grad_Nx s) q) != dofsPerCell
           then Raise ExcInternalError
           else Ok (reset_row numQuadPts q s))
    s (iota 0 numQuadPts).

Variable Tensor4 : Type.
Variable invert : 'M[R]_dim -> 'M[R]_dim.
Variable law : Constitutive R dim Tensor4.

(** [V] is [Vector<double>]; [get_function_gradients cell solution grad_u]
    is what [feValues[uFe].get_function_gradients] leaves in [grad_u] after
    [feValues.reinit(cell)]. *)
Variables CellIterator V : Type.
Variable get_function_gradients :
  CellIterator -> V -> seq 'M[R]_dim -> seq 'M[R]_dim.

Record ScratchDataQPH : Type := mkScratchDataQPH {
  solution : V;
  grad_u : seq 'M[R]_dim
}.

(** [ScratchDataQPH::reset], lines 220-227. *)
Definition ScratchDataQPH_reset (s : ScratchDataQPH) : ScratchDataQPH :=
  mkScratchDataQPH (solution s)
    (foldl (fun g q => set_nth 0 g q 0) (grad_u s) (iota 0 (size (grad_u s)))).

(** [HyperelasticSolver::updateLocalQPH], lines 333-349, on the quadrature
    point data [lqph] of the cell.  The first assertion makes [lqph] as long
    as the range of [q], so the loop is a pass over [lqph]. *)
Definition updateLocalQPH (numQuadPts : nat) (cell : CellIterator)
    (scratch : ScratchDataQPH) (lqph : seq (PointHistory R dim Tensor4))
  : result (ScratchDataQPH * seq (PointHistory R dim Tensor4)) :=
  if size lqph != numQuadPts then Raise ExcInternalError
  else if size (grad_u scratch) != numQuadPts then Raise ExcInternalError
  else
    let scratch := ScratchDataQPH_reset scratch in
    let scratch :=
      mkScratchDataQPH (solution scratch)
        (get_function_gradients cell (solution scratch) (grad_u scratch)) in
    lqph' <- mapM (fun qp =>
                     update invert law (nth 0 (grad_u scratch) qp.1) qp.2)
               (zip (iota 0 numQuadPts) lqph) ;;
    Ok (scratch, lqph').

End Scratch.

(** * A small instance

    A unit square of Neo-Hookean solid, one bilinear cell, displaced by one
    unit along the first axis, in a fluid mesh of two cells; and a linear
    spring of stiffness one under a unit load as the system the Newton
    iteration solves. *)

Module Fixture.

Definition pt (x y : rat) : 'cV[rat]_2 :=
  \col_(i < 2) (if (i : nat) == 0%N then x else y).

Definition law : Constitutive rat 2 unit :=
  mkConstitutive
    (fun mu _ F => mu *: (F *m F^T - 1%:M))
    (fun _ _ _ => tt)
    (fun _ rho F => rho * (\det F - 1))
    (fun _ rho _ => rho).

Definition cfg : AllParameters rat 2 :=
  mkAllParameters "NeoHookean" [:: 2] 3 2 (1 / 2) (1 / 2) 1 (pt 0 (- 1)).

Definition ph0 : PointHistory rat 2 unit :=
  mkPointHistory (Some (mkNeoHookean 1 1 None)) 0 0 tt 0 0.

Definition absE (x : rat) : Errors rat := mkErrors `|x| `|x|.

Definition spring : Assembly rat rat rat :=
  mkAssembly
    (mkErrors 1 1)
    (fun e e0 => mkErrors (norm e / norm e0) (u e / u e0))
    (fun _ => 0)
    id
    id
    (fun x => absE (1 - x))
    id
    (fun _ => id)
    id
    (fun _ x => (1 - x, x))
    (fun nu _ => absE nu)
    +%R
    (fun delta _ => delta).

(** A point lies in a cell when it lies in the box spanned by the vertices
    0 and 3 of the cell. *)
Definition in_box (vs : seq 'cV[rat]_2) (cell : Solid.Cell) (p : 'cV[rat]_2)
  : bool :=
  let a := nth 0 vs (Solid.vertex_index cell 0) in
  let b := nth 0 vs (Solid.vertex_index cell 3) in
  (a ord0 ord0 <= p ord0 ord0 <= b ord0 ord0)
  && (a ord_max ord0 <= p ord_max ord0 <= b ord_max ord0).

Definition located (vs : seq 'cV[rat]_2) (cells : seq Solid.Cell)
    (p : 'cV[rat]_2) (v : seq rat) : result (seq rat) :=
  if has (fun cell => in_box vs cell p) cells then Ok v
  else Raise ExcPointNotFound.

Definition fe : Interpolation rat 2 :=
  mkInterpolation
    in_box
    (fun f_cell q => Fluid.vertex f_cell q)
    (fun sol _ _ => pt (nth 0 (nth [::] sol 0) 0) (nth 0 (nth [::] sol 0) 1))
    (fun _ _ _ => 0)
    (fun _ _ _ => 0)
    (fun sol _ _ => nth 0 (nth [::] sol 1) 0)
    (fun vs cells field p => located vs cells p (take 2 field))
    (fun vs cells field p => located vs cells p (take 1 field))
    (fun vs cell f _ => nth 0 vs (Solid.vertex_index cell f))
    (fun _ _ _ _ => pt 1 0)
    (fun _ sol _ => [:: 0; 0; nth 0 (nth [::] sol 1) 0])
    (fun _ _ _ => [:: 0; 0; 0]).

Definition solid : Solid.SolidSolver rat 2 :=
  Solid.mkSolidSolver
    [:: pt 0 0; pt 1 0; pt 0 1; pt 1 1]
    [:: Solid.mkCell id (fun v d => (2 * v + d)%N) (fun _ => true) id]
    [:: 1; 0; 1; 0; 1; 0; 1; 0]
    [:: 0; 2; 0; 2; 0; 2; 0; 2]
    (fun _ _ => [:: 0; 0; 0; 0])
    [:: nseq 8 (Solid.CellProperty0 rat 2)]
    2.

Definition fluid : Fluid.FluidSolver rat 2 :=
  Fluid.mkFluidSolver
    [:: Fluid.mkCell (fun v => pt (1 + (v %% 2)%:R) (v %/ 2)%:R);
        Fluid.mkCell (fun v => pt (5 + (v %% 2)%:R) (v %/ 2)%:R)]
    [:: [:: 1; 1]; [:: 7]]
    [:: [:: 0; 0]; [:: 0]]
    [:: [:: Fluid.CellProperty0 rat 2]; [:: Fluid.CellProperty0 rat 2]]
    1.

Definition fsi : FSI rat 2 := mkFSI fluid solid cfg (1 / 10).

End Fixture.

(** ** Further cases of the instance

    The same square with its face 1 inside the solid, a fluid whose cell
    data an earlier step has written, an interpolation that finds no solid
    cell, a fluid at rest, quadrature point data without a material, with
    and without a stored deformation, and scratch tables with three
    degrees of freedom at two quadrature points. *)

Module Cases.

Import Fixture.

Definition cfg_steel : AllParameters rat 2 :=
  mkAllParameters "NeoHookean" [:: 5; 4] 7 2 (1 / 2) (1 / 2) 1 (pt 0 (- 1)).

Definition cfg_passes (n : nat) : AllParameters rat 2 :=
  mkAllParameters (type cfg) (C cfg) (rho cfg) n (tol_u cfg) (tol_f cfg)
    (viscosity cfg) (gravity cfg).

Definition solid_inner : Solid.SolidSolver rat 2 :=
  Solid.mkSolidSolver
    (Solid.triangulation solid)
    [:: Solid.mkCell id (fun v d => (2 * v + d)%N) (fun f => f != 1%N) id]
    (Solid.current_displacement solid)
    (Solid.current_acceleration solid)
    (Solid.stress solid)
    (Solid.cell_property solid)
    (Solid.n_face_q_points solid).

Definition fsi_inner : FSI rat 2 := mkFSI fluid solid_inner cfg (1 / 10).

(** The fluid with cell data that an earlier step has written. *)
Definition fluid_marked : Fluid.FluidSolver rat 2 :=
  Fluid.mkFluidSolver
    (Fluid.dof_handler fluid)
    (Fluid.present_solution fluid)
    (Fluid.solution_increment fluid)
    [:: [:: Fluid.mkCellProperty true (pt 1 1) 1%:M];
        [:: Fluid.mkCellProperty true (pt 1 1) 1%:M]]
    (Fluid.n_q_points fluid).

Definition fsi_marked : FSI rat 2 := mkFSI fluid_marked solid cfg (1 / 10).

Definition fe_lost : Interpolation rat 2 :=
  mkInterpolation
    (point_inside fe)
    (quadrature_point fe)
    (get_function_values fe)
    (get_function_gradients fe)
    (get_function_symmetric_gradients fe)
    (get_pressure_values fe)
    (fun _ _ _ _ => Raise ExcPointNotFound)
    (scalar_point_value fe)
    (face_quadrature_point fe)
    (normal_vector fe)
    (interpolator_point_value fe)
    (interpolator_point_gradient fe).

Definition at_rest (cells : seq (Fluid.Cell rat 2))
    (sol : Fluid.BlockVector rat) (p : 'cV[rat]_2) : result (seq rat) :=
  Ok [:: 0; 0; 0].

Definition dof (i d : nat) : nat := (2 * i + d)%N.

(** A point as it is constructed: with a null material pointer. *)
Definition ph_fresh : PointHistory rat 2 unit :=
  mkPointHistory None 0 0 tt 0 0.

Definition ph_used : PointHistory rat 2 unit :=
  mkPointHistory (Some (mkNeoHookean 1 1 (Some (2%:M)))) 1%:M 1%:M tt 1 1.

Definition rhs : ScratchDataRHS rat 2 :=
  mkScratchDataRHS
    [:: [:: 1; 2; 3]; [:: 4; 5; 6]]
    [:: [:: 1%:M; 1%:M; 1%:M]; [:: 1%:M; 1%:M; 1%:M]].

Definition gradients (cell : unit) (sol : seq rat) (g : seq 'M[rat]_2)
  : seq 'M[rat]_2 :=
  [seq x%:M | x <- take (size g) sol].

Definition qph : ScratchDataQPH rat 2 (seq rat) :=
  mkScratchDataQPH [:: 3] [:: 1%:M].

End Cases.

(** * Properties *)

(** ** The error monad *)

Lemma bind_Ok (A B : Type) (a : A) (k : A -> result B) : bind (Ok a) k = k a.
Proof. by []. Qed.

(** ** Quadrature point history *)

Section PointHistoryTheory.

Variables (R : realFieldType) (dim : nat) (Tensor4 : Type).
Variable invert : 'M[R]_dim -> 'M[R]_dim.
Variable law : Constitutive R dim Tensor4.

Local Notation update := (update invert law).
Local Notation setup := (setup invert law).
Local Notation updated := (updated invert law).
Local Notation PointHistory := (PointHistory R dim Tensor4).

Lemma update_material (Grad_u : 'M[R]_dim) (this : PointHistory)
    (m : NeoHookean R dim) :
  material this = Some m -> 0 < \det (1%:M + Grad_u) ->
  update Grad_u this = Ok (updated m Grad_u).
Proof. by rewrite /update /updateData /Kinematics_F => -> ->. Qed.

Lemma update_inverted (Grad_u : 'M[R]_dim) (this : PointHistory)
    (m : NeoHookean R dim) :
  material this = Some m -> (0 < \det (1%:M + Grad_u)) = false ->
  update Grad_u this = Raise ExcInternalError.
Proof. by rewrite /update /updateData /Kinematics_F => -> ->. Qed.

Lemma undeformed : 0 < \det (1%:M + 0 : 'M[R]_dim).
Proof. by rewrite addr0 det1 ltr01. Qed.

Lemma update_null (Grad_u : 'M[R]_dim) (this : PointHistory) :
  material this = None -> update Grad_u this = Raise NullPointer.
Proof. by rewrite /update => ->. Qed.

Lemma setup_unknown_type (parameters : AllParameters R dim)
    (this : PointHistory) :
  (type parameters =? "NeoHookean")%string = false ->
  setup parameters this = Raise ExcNotImplemented.
Proof. by rewrite /setup => ->. Qed.

Lemma setup_no_constants (parameters : AllParameters R dim)
    (this : PointHistory) :
  (type parameters =? "NeoHookean")%string -> C parameters = [::] ->
  setup parameters this = Raise ExcInternalError.
Proof. by rewrite /setup => -> ->; case: (material this). Qed.

Lemma setup_inv (parameters : AllParameters R dim) (this this1 : PointHistory) :
  setup parameters this = Ok this1 ->
  exists2 m, material this = Some m & this1 = updated m 0.
Proof.
rewrite /setup; case: (_ =? _)%string => //.
case Em: (material this) => [m|] //; case: (C parameters) => [|c0 _] //.
by rewrite (update_material Em undeformed) => -[<-]; exists m.
Qed.

Lemma setup_keeps_constants (parameters : AllParameters R dim)
    (this this1 : PointHistory) :
  setup parameters this = Ok this1 ->
  omap (fun m => (nh_mu m, nh_rho m)) (material this1) =
  omap (fun m => (nh_mu m, nh_rho m)) (material this).
Proof. by case/setup_inv => m Em ->; rewrite Em. Qed.

(** C9: [update] is idempotent: a second call with the same displacement
    gradient ends in the state the first call ended in (material with its
    stored deformation gradient, inverse deformation gradient, Kirchhoff
    stress, tangent modulus and both derivatives of the volumetric
    energy); when the first call fails, so does the pair. *)
Theorem update_idempotent (Grad_u : 'M[R]_dim) (this : PointHistory) :
  (this1 <- update Grad_u this ;; update Grad_u this1) = update Grad_u this.
Proof.
case Em: (material this) => [m|]; last by rewrite (update_null _ Em).
case J: (0 < \det (1%:M + Grad_u)); last by rewrite (update_inverted Em J).
rewrite (update_material Em J) bind_Ok.
by rewrite (@update_material Grad_u (updated m Grad_u)
              (mkNeoHookean (nh_mu m) (nh_rho m) (Some (1%:M + Grad_u)))).
Qed.

Lemma setup_null_material (parameters : AllParameters R dim)
    (this : PointHistory) :
  (type parameters =? "NeoHookean")%string -> material this = None ->
  setup parameters this = Raise ExcInternalError.
Proof. by rewrite /setup => -> ->. Qed.

Lemma setup_ok (parameters : AllParameters R dim) (this : PointHistory)
    (m : NeoHookean R dim) :
  (type parameters =? "NeoHookean")%string -> C parameters != [::] ->
  material this = Some m -> setup parameters this = Ok (updated m 0).
Proof.
rewrite /setup => -> nz Em; rewrite Em.
by case: (C parameters) nz => // c0 cs _; apply: update_material undeformed.
Qed.

(** C8: with a configuration that names "NeoHookean" and gives a material
    constant, [setup] on a point whose material pointer is null fails with
    [ExcInternalError], and so does [setup] followed by [update] with the
    zero displacement gradient: the material built from the configuration
    is held by the local pointer [nh] only, so no deformation gradient,
    Jacobian or stress is stored. *)
Theorem setup_update_zero_null_material (parameters : AllParameters R dim)
    (this : PointHistory) :
  (type parameters =? "NeoHookean")%string -> C parameters != [::] ->
  material this = None ->
  setup parameters this = Raise ExcInternalError /\
  (this1 <- setup parameters this ;; update 0 this1) = Raise ExcInternalError.
Proof. by move=> ty _ Em; rewrite (setup_null_material ty Em). Qed.

End PointHistoryTheory.

(** ** The Newton iteration *)

Section NonlinearSolverTheory.

Variables (R : realFieldType) (dim : nat) (W V : Type).
Variable fem : Assembly R W V.
Variable parameters : AllParameters R dim.

Local Notation Solver := (HyperelasticSolver R W V).
Local Notation newton_body := (newton_body fem parameters).
Local Notation newton_loop := (newton_loop fem parameters).
Local Notation state_at := (state_at fem parameters).
Local Notation residual_error := (residual_error fem parameters).
Local Notation update_error := (update_error fem parameters).
Local Notation converged_at := (converged_at fem parameters).
Local Notation max_it := (max_iterations_NR parameters).

(** The test of lines 386-387 on the state the body starts from. *)
Lemma is_break_body (k : nat) (s : Solver) :
  is_break (newton_body k s) =
  [&& (0 < k)%N,
      norm (errorUpdateNorm s) <= tol_u parameters &
      norm (normalize fem
              (getErrorResidual fem
                 (assembleGlobalRHS fem (set_zero fem (system s))))
              (if k == 0%N
               then getErrorResidual fem
                      (assembleGlobalRHS fem (set_zero fem (system s)))
               else errorResidual0 s))
        <= tol_f parameters].
Proof.
rewrite /newton_body; case: ifP => // _.
by case: (solveLinearSystem _ _ _).
Qed.

Lemma body0_continue (s : Solver) : is_break (newton_body 0 s) = false.
Proof. by rewrite is_break_body. Qed.

(** The residual baseline is written at counter [0] only. *)
Lemma errorResidual0_body (k : nat) (s : Solver) :
  errorResidual0 (state_of (newton_body k s)) =
  if k == 0%N
  then getErrorResidual fem (assembleGlobalRHS fem (set_zero fem (system s)))
  else errorResidual0 s.
Proof.
rewrite /newton_body; case: ifP => // _.
by case: (solveLinearSystem _ _ _).
Qed.

(** The update baseline is written at counter [0] only, and the normalized
    update error is the update error over that baseline. *)
Lemma errorUpdate_body (k : nat) (s : Solver) :
  let s' := state_of (newton_body k s) in
  (errorUpdateNorm s = normalize fem (errorUpdate s) (errorUpdate0 s) ->
   errorUpdateNorm s' = normalize fem (errorUpdate s') (errorUpdate0 s')) /\
  ((0 < k)%N -> errorUpdate0 s' = errorUpdate0 s) /\
  (k = 0%N ->
   errorUpdate0 s' = errorUpdate s' /\
   errorUpdateNorm s' = normalize fem (errorUpdate s') (errorUpdate0 s')).
Proof.
rewrite /newton_body; case: ifP => [/and3P[k_gt0 _ _]|_] /=.
  by split=> //; split=> // k0; rewrite k0 in k_gt0.
case: (solveLinearSystem _ _ _) => nu sys3 /=.
by split=> //; split=> [|->] //; case: k.
Qed.

Lemma baselines (s0 : Solver) (k : nat) :
  [/\ errorResidual0 (state_at s0 k.+1) = residual_error s0 0,
      errorUpdate0 (state_at s0 k.+1) = update_error s0 0 &
      errorUpdateNorm (state_at s0 k.+1) =
      normalize fem (update_error s0 k) (update_error s0 0)].
Proof.
elim: k => [|k [IHr IHu IHn]].
  rewrite /update_error /residual_error /= errorResidual0_body /=.
  by case: (errorUpdate_body 0 s0) => _ [_ /(_ erefl) [e0 ->]]; rewrite e0.
have [Hn [/(_ isT) H0 _]] := errorUpdate_body k.+1 (state_at s0 k.+1).
rewrite [state_at s0 k.+2]/= errorResidual0_body /= IHr.
rewrite /= in H0 Hn; rewrite H0 IHu; split=> //.
by rewrite /update_error /= Hn ?H0 ?IHu // IHn IHu.
Qed.

Lemma is_break_converged (s0 : Solver) (k : nat) :
  is_break (newton_body k (state_at s0 k)) = converged_at s0 k.
Proof.
case: k => [|k]; first by rewrite body0_continue.
have [Hr Hu Hn] := baselines s0 k.
by rewrite is_break_body /converged_at Hr Hn.
Qed.

Lemma newton_loop_step (fuel k : nat) (s : Solver) :
  newton_loop fuel.+1 k s =
  if is_break (newton_body k s) then (k, state_of (newton_body k s))
  else newton_loop fuel k.+1 (state_of (newton_body k s)).
Proof. by rewrite /=; case: (newton_body k s). Qed.

(** As long as the test fails the counter runs on, up to the bound. *)
Lemma newton_loop_exhausts (s0 : Solver) (fuel k : nat) :
  (forall j, (k <= j < k + fuel)%N -> ~~ converged_at s0 j) ->
  newton_loop fuel k (state_at s0 k) = ((k + fuel)%N, state_at s0 (k + fuel)).
Proof.
elim: fuel k => [|fuel IH] k Hj; first by rewrite addn0.
rewrite newton_loop_step is_break_converged (negbTE (Hj k _)).
  by rewrite leqnn -[X in (X < _)%N]addn0 ltn_add2l.
rewrite addnS -addSn -(IH k.+1) // => j /andP[kj jk].
by apply: Hj; rewrite (ltnW kj) addnS -addSn.
Qed.

(** The loop stops at the first counter at which the test holds. *)
Lemma newton_loop_converges (s0 : Solver) (fuel k n : nat) :
  (forall j, (k <= j < k + n)%N -> ~~ converged_at s0 j) ->
  converged_at s0 (k + n) -> (n < fuel)%N ->
  newton_loop fuel k (state_at s0 k) =
  ((k + n)%N, state_of (newton_body (k + n) (state_at s0 (k + n)))).
Proof.
elim: n fuel k => [|n IH] [|fuel] k // Hj Hc Hn.
  by rewrite addn0 in Hc *; rewrite newton_loop_step is_break_converged Hc.
rewrite newton_loop_step is_break_converged (negbTE (Hj k _)).
  by rewrite leqnn -[X in (X < _)%N]addn0 ltn_add2l.
rewrite addnS -addSn in Hc *; rewrite -(IH fuel k.+1) // => j /andP[kj jk].
by apply: Hj; rewrite (ltnW kj) addnS -addSn.
Qed.

Lemma solveNonlinearTimestep_converged (sys : W) (solution_delta : V)
    (n : nat) :
  let s0 := newton_init fem sys solution_delta in
  (forall j, (j < n)%N -> ~~ converged_at s0 j) -> converged_at s0 n ->
  (n < max_it)%N ->
  solveNonlinearTimestep fem parameters sys solution_delta =
  Ok (state_of (newton_body n (state_at s0 n))).
Proof.
move=> s0 Hj Hn ltn; rewrite /solveNonlinearTimestep -/s0.
by rewrite (@newton_loop_converges s0 max_it 0 n) ?add0n ?ltn.
Qed.

(** C1: when the convergence test holds at no value of the counter below
    [max_iterations_NR], the time step ends with the exception
    "No convergence in nonlinear solver!" and returns no state. *)
Theorem solveNonlinearTimestep_diverged (sys : W) (solution_delta : V) :
  (forall k, (k < max_it)%N ->
     ~~ converged_at (newton_init fem sys solution_delta) k) ->
  solveNonlinearTimestep fem parameters sys solution_delta =
  Raise no_convergence.
Proof.
move=> Hk; rewrite /solveNonlinearTimestep.
by rewrite (@newton_loop_exhausts _ max_it 0) ?add0n ?ltnn.
Qed.


End NonlinearSolverTheory.

(** ** Vectors of objects changed in place *)

Section Assign.

Variables (T : Type) (x0 : T).

Lemma size_assign (s : seq T) (i : nat) (f : T -> T) :
  (i < size s)%N -> size (assign x0 s i f) = size s.
Proof. by move=> lt_i; rewrite size_set_nth; apply/maxn_idPr. Qed.

Lemma nth_assign (s : seq T) (i j : nat) (f : T -> T) :
  nth x0 (assign x0 s i f) j = if j == i then f (nth x0 s i) else nth x0 s j.
Proof. by rewrite nth_set_nth. Qed.

End Assign.

Lemma set_nth_twice (T : Type) (x0 : T) (s : seq T) (n : nat) (y1 y2 : T) :
  set_nth x0 (set_nth x0 s n y1) n y2 = set_nth x0 s n y2.
Proof. by rewrite set_set_nth eqxx. Qed.

Lemma map_set_nth (T U : Type) (h : T -> U) (x0 : T) (s : seq T) (n : nat)
    (y : T) :
  map h (set_nth x0 s n y) = set_nth (h x0) (map h s) n (h y).
Proof.
elim: s n => [|x s IH] [|n] //=; last by rewrite IH.
by congr cons; elim: n => //= n ->.
Qed.

(** Two loops over the same sequence keep a relation between their states
    that each pair of passes keeps. *)
Lemma foldl_rel (A B T : Type) (P : A -> B -> Prop) (ok : pred T)
    (f : A -> T -> A) (g : B -> T -> B) (l : seq T) (a : A) (b : B) :
  (forall a b x, ok x -> P a b -> P (f a x) (g b x)) ->
  all ok l -> P a b -> P (foldl f a l) (foldl g b l).
Proof.
move=> step; elim: l a b => [|x l IH] a b //= /andP[okx okl] Pab.
by apply: IH => //; apply: step.
Qed.

(** ** Moving the solid mesh *)

Section MoveSolidMesh.

Variables (R : realFieldType) (dim : nat).

Local Notation Point := 'cV[R]_dim.

Local Notation mesh := (Solid.SolidSolver R dim).

Lemma mirror_vertex (disp : seq R) (cell : Solid.Cell) (V W : seq Point)
    (st1 st2 : seq bool * seq Point) (v : nat) :
  (Solid.vertex_index cell v < size V)%N -> size V = size W ->
  mirror V W st1 st2 ->
  mirror V W (move_vertex true disp cell st1 v)
    (move_vertex false disp cell st2 v).
Proof.
move=> ltV eqVW [eq_t szV szW sumVW]; rewrite /move_vertex -eq_t.
case: ifP => _; first by split.
split=> /=; rewrite ?size_assign ?szV ?szW -?eqVW // => i.
rewrite !nth_assign; case: ifP => [/eqP ->|_] //.
by rewrite addrACA subrr addr0.
Qed.

Lemma mirror_cell (disp : seq R) (cell : Solid.Cell) (V W : seq Point)
    (st1 st2 : seq bool * seq Point) :
  all (fun v => (Solid.vertex_index cell v < size V)%N)
    (iota 0 (vertices_per_cell dim)) ->
  size V = size W -> mirror V W st1 st2 ->
  mirror V W (move_cell true disp st1 cell) (move_cell false disp st2 cell).
Proof.
move=> ok eqVW; apply: foldl_rel ok => a b v ltV.
exact: mirror_vertex.
Qed.

Lemma mirror_mesh (disp : seq R) (cells : seq Solid.Cell) (V W : seq Point)
    (st1 st2 : seq bool * seq Point) :
  all (fun cell =>
         all (fun v => (Solid.vertex_index cell v < size V)%N)
           (iota 0 (vertices_per_cell dim))) cells ->
  size V = size W -> mirror V W st1 st2 ->
  mirror V W (foldl (move_cell true disp) st1 cells)
    (foldl (move_cell false disp) st2 cells).
Proof.
move=> ok eqVW; apply: foldl_rel ok => a b cell okc.
exact: mirror_cell.
Qed.

Lemma size_move_vertices (s : mesh) :
  mesh_ok s -> size (move_vertices true s) = size (Solid.triangulation s).
Proof.
move=> ok; rewrite /move_vertices.
set t0 := nseq _ _; set V := Solid.triangulation s.
by have [] := @mirror_mesh (Solid.current_displacement s) _ V V
                (t0, V) (t0, V) ok erefl.
Qed.

Lemma move_vertices_roundtrip (s : mesh) :
  mesh_ok s ->
  move_vertices false (Solid.set_triangulation s (move_vertices true s)) =
  Solid.triangulation s.
Proof.
move=> ok; have szV := size_move_vertices ok.
rewrite {1}/move_vertices /= szV.
set t0 := nseq _ _; set V := Solid.triangulation s in szV *.
set V' := move_vertices true s in szV *.
have [] := @mirror_mesh (Solid.current_displacement s) _ V V'
             (t0, V) (t0, V') ok (esym szV).
  by split.
rewrite -/(move_vertices true s) -/V'.
move=> _ _ szW sumVW; apply: (@eq_from_nth _ 0); first by rewrite szW.
by move=> i _; apply: (@addrI _ (nth 0 V' i)); rewrite sumVW addrC.
Qed.

(** C6: on a mesh whose cells name vertices of the triangulation,
    [move_solid_mesh(true)] followed by [move_solid_mesh(false)] puts every
    vertex of the solid mesh back where it was, whatever the displacement
    field; nothing else changes either. *)
Theorem move_solid_mesh_roundtrip (fsi : FSI R dim) :
  mesh_ok (solid_solver fsi) ->
  move_solid_mesh false (move_solid_mesh true fsi) = fsi.
Proof.
case: fsi => fl s params dt ok; rewrite /move_solid_mesh /set_solid_solver /=.
rewrite move_vertices_roundtrip // /Solid.set_triangulation /=.
by case: s ok.
Qed.

End MoveSolidMesh.

(** ** Loops on vectors of objects *)

Section Loops.

Variables (T : Type) (x0 : T).

(** A loop that changes the object at index [b + q] in pass [q]. *)
Lemma nth_foldl_assign (g : nat -> T -> T) (b n : nat) (p : seq T) (j : nat) :
  nth x0 (foldl (fun p q => assign x0 p (b + q) (g q)) p (iota 0 n)) j =
  if (b <= j < b + n)%N then g (j - b)%N (nth x0 p j) else nth x0 p j.
Proof.
elim: n j => [|n IH] j.
  by rewrite addn0 /=; case: leqP => // /leq_gtF ->.
rewrite -{1}addn1 iotaD foldl_cat /= add0n nth_assign !IH addnS ltnS.
case: (eqVneq j (b + n)%N) => [->|neq_j].
  by rewrite leq_addr ltnn leqnn /= addKn.
by rewrite [(j <= _)%N]leq_eqVlt (negbTE neq_j).
Qed.

Lemma nth_for_cells (Cell : Type) (c0 : Cell) (body : Cell -> seq T -> seq T)
    (cells : seq Cell) (storage : seq (seq T)) (c : nat) :
  (c < size cells)%N -> (c < size storage)%N ->
  nth [::] (for_cells body cells storage) c =
  body (nth c0 cells c) (nth [::] storage c).
Proof.
move=> ltc lts; rewrite /for_cells.
have ltz : (c < size (zip cells storage))%N by rewrite size_zip leq_min ltc.
by rewrite (nth_map (c0, [::])) // nth_zip_cond ltz.
Qed.

End Loops.

(** ** The indicator *)

Section Indicator.

Variables (R : realFieldType) (dim : nat).
Variable fe : Interpolation R dim.

Local Notation Point := 'cV[R]_dim.

Lemma point_in_cellsE (vs : seq Point) (cells : seq Solid.Cell) (p : Point) :
  point_in_cells fe vs cells p =
  has (fun cell => point_inside fe vs cell p) cells.
Proof.
elim: cells => [|cell cells IH] //=.
by rewrite IH; case: (point_inside _ _ _ _).
Qed.

Lemma vertices_in_solidE (df : Solid.SolidSolver R dim)
    (f_cell : Fluid.Cell R dim) (vs : seq nat) :
  vertices_in_solid fe df f_cell vs =
  all (fun v => point_in_mesh fe df (Fluid.vertex f_cell v)) vs.
Proof.
elim: vs => [|v vs IH] //=.
by rewrite IH; case: (point_in_mesh _ _ _).
Qed.

Lemma move_solid_mesh_fluid (b : bool) (fsi : FSI R dim) :
  fluid_solver (move_solid_mesh b fsi) = fluid_solver fsi.
Proof. by []. Qed.

(** C4: after [update_indicator], the indicator at quadrature point [q] of
    the fluid cell [c] is true exactly when every vertex of the cell lies
    in some cell of the solid mesh, taken with its vertices moved forward by
    the current displacement. *)
Theorem update_indicator_all_vertices (fsi : FSI R dim) (c q : nat) :
  let fl := fluid_solver fsi in
  let s := solid_solver fsi in
  (c < size (Fluid.dof_handler fl))%N ->
  (c < size (Fluid.cell_property fl))%N ->
  (q < Fluid.n_q_points fl)%N ->
  Fluid.indicator
    (nth (Fluid.CellProperty0 R dim)
       (nth [::]
          (Fluid.cell_property (fluid_solver (update_indicator fe fsi))) c)
       q) =
  all (fun v =>
         has (fun s_cell =>
                point_inside fe (move_vertices true s) s_cell
                  (Fluid.vertex
                     (nth (Fluid.Cell0 R dim) (Fluid.dof_handler fl) c) v))
           (Solid.dof_handler s))
    (iota 0 (vertices_per_cell dim)).
Proof.
move=> fl s ltc ltp ltq; rewrite /update_indicator move_solid_mesh_fluid /=.
rewrite (nth_for_cells (Fluid.Cell0 R dim)) // /update_indicator_cell.
have := nth_foldl_assign (Fluid.CellProperty0 R dim) (fun _ => set_indicator _)
          0 _ _ q.
rewrite /= => ->; rewrite ltq /= vertices_in_solidE.
by apply: eq_all => v; rewrite /point_in_mesh point_in_cellsE.
Qed.

End Indicator.

(** ** The traction on the solid *)

Section SolidBC.

Variables (R : realFieldType) (dim : nat).
Variable fe : Interpolation R dim.

Local Notation x0 := (Solid.CellProperty0 R dim).

Lemma nth_find_solid_bc_face (fsi : FSI R dim) (s_cell : Solid.Cell)
    (ptr : seq (Solid.CellProperty R dim)) (f j : nat) :
  let n := Solid.n_face_q_points (solid_solver fsi) in
  nth x0 (find_solid_bc_face fe fsi s_cell ptr f) j =
  if Solid.at_boundary s_cell f && (f * n <= j < f * n + n)%N
  then Solid.mkCellProperty (face_traction fe fsi s_cell f (j - f * n))
  else nth x0 ptr j.
Proof.
rewrite /find_solid_bc_face; case: (Solid.at_boundary s_cell f) => //=.
exact: (nth_foldl_assign x0
          (fun q => set_fsi_traction (face_traction fe fsi s_cell f q))).
Qed.

(** The faces from [m] on leave the entries below [m * n_face_q_points]
    alone. *)
Lemma nth_find_solid_bc_later (fsi : FSI R dim) (s_cell : Solid.Cell)
    (ptr : seq (Solid.CellProperty R dim)) (m k j : nat) :
  (j < m * Solid.n_face_q_points (solid_solver fsi))%N ->
  nth x0 (foldl (find_solid_bc_face fe fsi s_cell) ptr (iota m k)) j =
  nth x0 ptr j.
Proof.
elim: k m ptr => [|k IH] m ptr ltj //=.
rewrite IH; first by rewrite mulSn (leq_trans ltj) ?leq_addl.
by rewrite nth_find_solid_bc_face [(_ <= j)%N]leqNgt ltj andbF.
Qed.

Lemma nth_find_solid_bc_cell (fsi : FSI R dim) (s_cell : Solid.Cell)
    (ptr : seq (Solid.CellProperty R dim)) (f q : nat) :
  let n := Solid.n_face_q_points (solid_solver fsi) in
  (f < faces_per_cell dim)%N -> (q < n)%N -> Solid.at_boundary s_cell f ->
  nth x0 (find_solid_bc_cell fe fsi s_cell ptr) (f * n + q) =
  Solid.mkCellProperty (face_traction fe fsi s_cell f q).
Proof.
move=> n ltf ltq bf; rewrite /find_solid_bc_cell -(subnKC ltf).
rewrite iotaD -addn1 iotaD !foldl_cat /= !add0n addn1.
rewrite nth_find_solid_bc_later; first by rewrite mulSn addnC ltn_add2r.
by rewrite nth_find_solid_bc_face bf leq_addr ltn_add2l ltq addKn.
Qed.

(** C3: [find_solid_bc] stores the traction [(-p I + mu sym(grad v)) n],
    taken at the moved mesh, at every quadrature point of every face that
    lies on the boundary; the only attribute of the face it reads is
    [at_boundary], so the faces that carry a Dirichlet condition are
    written like the others. *)
Theorem find_solid_bc_every_boundary_face (fsi : FSI R dim) (c f q : nat) :
  let s := solid_solver fsi in
  let n := Solid.n_face_q_points s in
  let s_cell := nth Solid.Cell0 (Solid.dof_handler s) c in
  (c < size (Solid.dof_handler s))%N -> (c < size (Solid.cell_property s))%N ->
  (f < faces_per_cell dim)%N -> (q < n)%N -> Solid.at_boundary s_cell f ->
  Solid.fsi_traction
    (nth x0
       (nth [::] (Solid.cell_property (solid_solver (find_solid_bc fe fsi))) c)
       (f * n + q)) =
  face_traction fe (move_solid_mesh true fsi) s_cell f q.
Proof.
move=> s n s_cell ltc ltp ltf ltq bf; rewrite /find_solid_bc /=.
by rewrite (nth_for_cells Solid.Cell0) // nth_find_solid_bc_cell.
Qed.

End SolidBC.

(** ** Loops whose body can throw *)

Section MonadicLoops.

Variables (T : Type) (x0 : T).

Lemma mapM_ok (A B : Type) (f : A -> result B) (l : seq A) :
  all (fun x => is_ok (f x)) l -> is_ok (mapM f l).
Proof.
elim: l => [|x l IH] //= /andP[]; case: (f x) => //= y _ /IH.
by case: (mapM f l).
Qed.

Lemma mapM_nth (A B : Type) (a0 : A) (b0 : B) (f : A -> result B)
    (l : seq A) (r : seq B) :
  mapM f l = Ok r ->
  size r = size l /\
  forall i, (i < size l)%N -> f (nth a0 l i) = Ok (nth b0 r i).
Proof.
elim: l r => [|x l IH] r /=; first by case=> <-.
case fx: (f x) => [y|e] //=; case fl: (mapM f l) => [ys|e] //= -[<-] /=.
have [sz nth_ys] := IH ys fl.
by rewrite sz; split=> // -[|i] //=; apply: nth_ys.
Qed.

(** Two maps whose bodies agree under a projection agree under it. *)
Lemma mapM_proj (A B C : Type) (h : B -> C) (f g : A -> result B) (l : seq A) :
  (forall x, res_map h (f x) = res_map h (g x)) ->
  res_map (map h) (mapM f l) = res_map (map h) (mapM g l).
Proof.
move=> fg; elim: l => [|x l] //=.
have:= fg x; case: (f x) => [y|e]; case: (g x) => [z|e'] //= [eq_yz].
  by case: (mapM f l) => [ys|e]; case: (mapM g l) => [zs|e'] //= [->];
     rewrite eq_yz.
by rewrite eq_yz.
Qed.

Lemma foldM_fill_ok (g : nat -> result T) (m n : nat) (ptr : seq T) :
  (forall q, (m <= q < m + n)%N -> is_ok (g q)) ->
  is_ok (foldM (fill x0 g) ptr (iota m n)).
Proof.
elim: n m ptr => [|n IH] m ptr ok_g //=.
have:= ok_g m; rewrite leqnn addnS ltnS leq_addr /fill => /(_ isT).
case: (g m) => //= p _; apply: IH => q /andP[ltq leq].
by apply: ok_g; rewrite (ltnW ltq) addnS -addSn.
Qed.

Lemma foldM_fill_nth (g : nat -> result T) (m n : nat) (ptr ptr' : seq T) :
  foldM (fill x0 g) ptr (iota m n) = Ok ptr' ->
  forall j, if (m <= j < m + n)%N then g j = Ok (nth x0 ptr' j)
            else nth x0 ptr' j = nth x0 ptr j.
Proof.
elim: n m ptr => [|n IH] m ptr /=.
  by case=> <- j; rewrite addn0; case: leqP => // /leq_gtF ->.
rewrite {1}/fill; case gm: (g m) => [p|e] //= /IH{}IH j.
have:= IH j; rewrite addSnnS nth_set_nth /= [(m <= j)%N]leq_eqVlt.
case: (eqVneq m j) => [<-|neq_mj] //=.
by rewrite ltnn /= addnS ltnS leq_addr /= gm => ->.
Qed.

(** The loop leaves a vector that holds every index it ran over. *)
Lemma foldM_fill_size (g : nat -> result T) (m n : nat) (ptr ptr' : seq T) :
  foldM (fill x0 g) ptr (iota m n) = Ok ptr' ->
  (size ptr <= size ptr')%N /\
  forall j, (m <= j < m + n)%N -> (j < size ptr')%N.
Proof.
elim: n m ptr => [|n IH] m ptr /=.
  by case=> <-; split=> // j; rewrite addn0; case: leqP.
rewrite {1}/fill; case gm: (g m) => [p|e] //= /IH[].
rewrite size_set_nth geq_max => /andP[ltm le_sz] cov; split=> // j.
rewrite leq_eqVlt addnS -addSn.
by case: (eqVneq m j) => [<- _|_] /=; [exact: ltm|exact: cov].
Qed.

(** Two such loops whose bodies agree under a projection agree under it,
    when the vectors they start from do. *)
Lemma foldM_fill_proj (C : Type) (h : T -> C) (g g' : nat -> result T)
    (l : seq nat) (ptr ptr' : seq T) :
  (forall q, res_map h (g q) = res_map h (g' q)) ->
  map h ptr = map h ptr' ->
  res_map (map h) (foldM (fill x0 g) ptr l) =
  res_map (map h) (foldM (fill x0 g') ptr' l).
Proof.
move=> gg'; elim: l ptr ptr' => [|q l IH] ptr ptr' eq_h //=.
  by rewrite eq_h.
rewrite /fill; have:= gg' q.
case: (g q) => [p|e]; case: (g' q) => [p'|e'] //= [eq_p]; last by rewrite eq_p.
by apply: IH; rewrite !map_set_nth eq_h eq_p.
Qed.

End MonadicLoops.

Lemma foldM_ext (A B : Type) (f g : A -> B -> result A) (l : seq B) (a : A) :
  (forall a x, f a x = g a x) -> foldM f a l = foldM g a l.
Proof.
by move=> fg; elim: l a => [|x l IH] a //=; rewrite fg; case: (g a x).
Qed.

(** ** The forces on the fluid *)

Section FluidBC.

Variables (R : realFieldType) (dim : nat).
Variable fe : Interpolation R dim.

Local Notation x0 := (Fluid.CellProperty0 R dim).
Local Notation c0 := (Fluid.Cell0 R dim).

Lemma find_fluid_bc_pointE (fsi : FSI R dim) (f_cell : Fluid.Cell R dim)
    (ptr : seq (Fluid.CellProperty R dim)) (q : nat) :
  find_fluid_bc_point fe fsi f_cell ptr q =
  fill x0 (fsi_forces fe fsi f_cell) ptr q.
Proof.
rewrite /find_fluid_bc_point /fill /fsi_forces /assign.
rewrite !nth_set_nth /= !eqxx /= !set_nth_twice.
case: (point_in_mesh _ _ _) => //=.
case: (point_value _ _ _ _ _) => [solid_acc|e] //=.
case: (solid_sigma _ _ _) => [sigma|e] //=.
by rewrite !nth_set_nth /= !eqxx /= !set_nth_twice.
Qed.

Lemma find_fluid_bc_cellE (fsi : FSI R dim) (f_cell : Fluid.Cell R dim)
    (ptr : seq (Fluid.CellProperty R dim)) :
  find_fluid_bc_cell fe fsi f_cell ptr =
  foldM (fill x0 (fsi_forces fe fsi f_cell)) ptr
    (iota 0 (Fluid.n_q_points (fluid_solver fsi))).
Proof. by apply: foldM_ext => a q; apply: find_fluid_bc_pointE. Qed.

Lemma fsi_forces_outside (fsi : FSI R dim) (f_cell : Fluid.Cell R dim)
    (q : nat) :
  ~~ point_in_mesh fe (solid_solver fsi) (quadrature_point fe f_cell q) ->
  fsi_forces fe fsi f_cell q = Ok (Fluid.mkCellProperty false 0 0).
Proof. by rewrite /fsi_forces => ->. Qed.

Lemma fsi_forces_ok (fsi : FSI R dim) (f_cell : Fluid.Cell R dim) (q : nat) :
  let point := quadrature_point fe f_cell q in
  (point_in_mesh fe (solid_solver fsi) point ->
   interpolation_succeeds fe (solid_solver fsi) point) ->
  is_ok (fsi_forces fe fsi f_cell q).
Proof.
rewrite /fsi_forces /interpolation_succeeds /=.
case: (point_in_mesh _ _ _) => //= /(_ isT).
by case: (point_value _ _ _ _ _) => //= a; case: (solid_sigma _ _ _).
Qed.

Lemma fsi_forces_inside (fsi : FSI R dim) (f_cell : Fluid.Cell R dim)
    (q : nat) (p : Fluid.CellProperty R dim) :
  let s := solid_solver fsi in
  let point := quadrature_point fe f_cell q in
  point_in_mesh fe s point -> fsi_forces fe fsi f_cell q = Ok p ->
  exists2 solid_acc,
    point_value fe (Solid.triangulation s) (Solid.dof_handler s)
      (Solid.current_acceleration s) point = Ok solid_acc &
    Fluid.fsi_acceleration p =
    \col_(i < dim) (gravity (parameters fsi) i 0 - nth 0 solid_acc i).
Proof.
rewrite /fsi_forces /= => ->.
case: (point_value _ _ _ _ _) => [solid_acc|e] //=.
by case: (solid_sigma _ _ _) => [sigma|e] //= -[<-]; exists solid_acc.
Qed.

(** The row of a cell after [find_fluid_bc]. *)
Lemma find_fluid_bc_nth (fsi fsi' : FSI R dim) (c q : nat) :
  let fsi1 := move_solid_mesh true fsi in
  let fl := fluid_solver fsi in
  find_fluid_bc fe fsi = Ok fsi' ->
  (c < size (Fluid.dof_handler fl))%N ->
  (c < size (Fluid.cell_property fl))%N ->
  (q < Fluid.n_q_points fl)%N ->
  fsi_forces fe fsi1 (nth c0 (Fluid.dof_handler fl) c) q =
  Ok (nth x0 (nth [::] (Fluid.cell_property (fluid_solver fsi')) c) q).
Proof.
move=> fsi1 fl; rewrite /find_fluid_bc /for_cellsM -/fsi1.
case E: (mapM _ _) => [cp|e] //= -[<-] ltc ltp ltq /=.
have [_ /(_ c)] := mapM_nth (c0, [::]) [::] E.
rewrite size_zip leq_min ltc ltp nth_zip_cond size_zip leq_min ltc ltp /=.
rewrite find_fluid_bc_cellE => /(_ isT) Hrow.
by have:= foldM_fill_nth Hrow q; rewrite add0n leq0n [(q < _)%N]ltq.
Qed.

Lemma find_fluid_bc_size (fsi fsi' : FSI R dim) (c q : nat) :
  let fl := fluid_solver fsi in
  let cp' := Fluid.cell_property (fluid_solver fsi') in
  find_fluid_bc fe fsi = Ok fsi' ->
  (c < size (Fluid.dof_handler fl))%N ->
  (c < size (Fluid.cell_property fl))%N ->
  (q < Fluid.n_q_points fl)%N ->
  (c < size cp')%N /\ (q < size (nth [::] cp' c))%N.
Proof.
move=> fl cp'; rewrite /cp' /find_fluid_bc /for_cellsM.
set fsi1 := move_solid_mesh true fsi.
case E: (mapM _ _) => [cp|e] //= -[<-] ltc ltp ltq /=.
have [sz /(_ c)] := mapM_nth (c0, [::]) [::] E.
rewrite sz size_zip leq_min ltc ltp nth_zip_cond size_zip leq_min ltc ltp /=.
rewrite find_fluid_bc_cellE => /(_ isT) Hrow.
have [_ cov] := foldM_fill_size Hrow; split=> //.
by apply: cov; rewrite add0n leq0n.
Qed.

Lemma find_fluid_bc_ok (fsi : FSI R dim) :
  let fsi1 := move_solid_mesh true fsi in
  let fl := fluid_solver fsi in
  (forall c q,
     (c < size (Fluid.dof_handler fl))%N -> (q < Fluid.n_q_points fl)%N ->
     let point := quadrature_point fe (nth c0 (Fluid.dof_handler fl) c) q in
     point_in_mesh fe (solid_solver fsi1) point ->
     interpolation_succeeds fe (solid_solver fsi1) point) ->
  is_ok (find_fluid_bc fe fsi).
Proof.
move=> fsi1 fl ok; rewrite /find_fluid_bc /for_cellsM -/fsi1.
suff: is_ok (mapM (fun c => find_fluid_bc_cell fe fsi1 c.1 c.2)
               (zip (Fluid.dof_handler fl) (Fluid.cell_property fl))).
  by rewrite /=; case: (mapM _ _).
apply: mapM_ok; apply/(all_nthP (c0, [::])) => c.
rewrite size_zip leq_min nth_zip_cond size_zip leq_min => /andP[ltc ltp].
rewrite ltc ltp /= find_fluid_bc_cellE; apply: foldM_fill_ok => q /= ltq.
by apply: fsi_forces_ok; apply: ok.
Qed.

(** C5: when the interpolation of the solid fields returns at every
    quadrature point that lies in the moved solid mesh, [find_fluid_bc]
    returns; no condition bears on the points outside the solid.  The cell
    data it leaves has an entry for every quadrature point of every cell,
    and the entry of a point outside the solid has indicator false, zero
    acceleration and zero stress, whatever it held before. *)
Theorem find_fluid_bc_point_outside_solid (fsi : FSI R dim) :
  let fsi1 := move_solid_mesh true fsi in
  let fl := fluid_solver fsi in
  let point c q := quadrature_point fe (nth c0 (Fluid.dof_handler fl) c) q in
  (forall c q,
     (c < size (Fluid.dof_handler fl))%N -> (q < Fluid.n_q_points fl)%N ->
     point_in_mesh fe (solid_solver fsi1) (point c q) ->
     interpolation_succeeds fe (solid_solver fsi1) (point c q)) ->
  exists2 fsi' : FSI R dim,
    find_fluid_bc fe fsi = Ok fsi' &
    forall c q,
      (c < size (Fluid.dof_handler fl))%N ->
      (c < size (Fluid.cell_property fl))%N ->
      (q < Fluid.n_q_points fl)%N ->
      ~~ point_in_mesh fe (solid_solver fsi1) (point c q) ->
      let cp' := Fluid.cell_property (fluid_solver fsi') in
      [/\ (c < size cp')%N, (q < size (nth [::] cp' c))%N &
          forall d, nth d (nth [::] cp' c) q = Fluid.mkCellProperty false 0 0].
Proof.
move=> fsi1 fl point /find_fluid_bc_ok.
case E: (find_fluid_bc fe fsi) => [fsi'|e] // _; exists fsi' => //.
move=> c q ltc ltp ltq out cp'.
have [ltc' ltq'] := find_fluid_bc_size E ltc ltp ltq; split=> // d.
have:= find_fluid_bc_nth E ltc ltp ltq.
by rewrite fsi_forces_outside // (set_nth_default d x0 ltq') => -[].
Qed.

(** C10: the accelerations [find_fluid_bc] stores, and whether it returns,
    are the same whatever [present_solution] and [solution_increment] of
    the fluid hold; at a quadrature point in the moved solid mesh the
    stored acceleration is the gravity minus the solid acceleration
    interpolated at the point. *)
Theorem fsi_acceleration_ignores_fluid_solution (fsi : FSI R dim)
    (sol inc : Fluid.BlockVector R) :
  let fsi1 := move_solid_mesh true fsi in
  let fl := fluid_solver fsi in
  let s1 := solid_solver fsi1 in
  let point c q := quadrature_point fe (nth c0 (Fluid.dof_handler fl) c) q in
  res_map (@fsi_accelerations R dim)
    (find_fluid_bc fe (set_fluid_solver fsi (Fluid.set_solution fl sol inc))) =
  res_map (@fsi_accelerations R dim) (find_fluid_bc fe fsi) /\
  forall (fsi' : FSI R dim) (c q : nat),
    find_fluid_bc fe fsi = Ok fsi' ->
    (c < size (Fluid.dof_handler fl))%N ->
    (c < size (Fluid.cell_property fl))%N ->
    (q < Fluid.n_q_points fl)%N ->
    point_in_mesh fe s1 (point c q) ->
    exists2 solid_acc,
      point_value fe (Solid.triangulation s1) (Solid.dof_handler s1)
        (Solid.current_acceleration s1) (point c q) = Ok solid_acc &
      Fluid.fsi_acceleration
        (nth x0 (nth [::] (Fluid.cell_property (fluid_solver fsi')) c) q) =
      \col_(i < dim) (gravity (parameters fsi) i 0 - nth 0 solid_acc i).
Proof.
move=> fsi1 fl s1 point; split; last first.
  move=> fsi' c q E ltc ltp ltq ins; have:= find_fluid_bc_nth E ltc ltp ltq.
  exact: fsi_forces_inside.
rewrite /find_fluid_bc /for_cellsM /=.
set body := fun c : Fluid.Cell R dim * _ => _.
set body' := fun c : Fluid.Cell R dim * _ => _.
set cells := zip _ _.
have: res_map (map (map (@Fluid.fsi_acceleration R dim))) (mapM body cells) =
      res_map (map (map (@Fluid.fsi_acceleration R dim))) (mapM body' cells).
  apply: mapM_proj => -[f_cell row]; rewrite /body /body' !find_fluid_bc_cellE.
  apply: foldM_fill_proj => // q; rewrite /fsi_forces /=.
  case: (point_in_mesh _ _ _) => //=.
  case: (point_value _ _ _ _ _) => [solid_acc|e] //=.
  by case: (solid_sigma _ _ _).
by case: (mapM body cells) => [cp|e]; case: (mapM body' cells) => [cp'|e'].
Qed.

End FluidBC.

(** * The instance *)

Section Instance.

Import Fixture.

Lemma solveNonlinearTimestep_diverged_witness :
  solveNonlinearTimestep spring cfg 0 0 = Raise no_convergence.
Proof. by apply: solveNonlinearTimestep_diverged; case=> [|[|k]]. Defined.

(** With three passes allowed the spring converges, at counter 2: the
    update of pass 1 is the first one small against the update of pass 0. *)
Example spring_converges :
  let cfg3 := mkAllParameters (type cfg) (C cfg) (rho cfg) 3 (tol_u cfg)
                (tol_f cfg) (viscosity cfg) (gravity cfg) in
  res_map (@solution_delta rat rat rat) (solveNonlinearTimestep spring cfg3 0 0)
  = Ok (1 + 0).
Proof. by []. Qed.

(** C7: [setup] with the configuration "NeoHookean", [C = (2)], [rho = 3] on
    a point that holds a Neo-Hookean material of shear modulus 1 and
    density 1 returns, and the material of the point still has shear
    modulus 1, not the configured 2: the material built from the
    configuration is dropped. *)
Theorem setup_drops_configured_material :
  exists this1 : PointHistory rat 2 unit,
    [/\ setup invmx law cfg ph0 = Ok this1,
        omap (@nh_mu rat 2) (material this1) = Some 1 &
        omap (@nh_mu rat 2) (material this1) <> Some (head 0 (C cfg))].
Proof.
exists (updated invmx law (mkNeoHookean 1 1 None) 0); split=> //.
exact: setup_ok.
Qed.

Lemma setup_update_zero_null_material_witness :
  setup invmx law cfg Cases.ph_fresh = Raise ExcInternalError /\
  (this1 <- setup invmx law cfg Cases.ph_fresh ;; update invmx law 0 this1) =
  Raise ExcInternalError.
Proof. by apply: setup_update_zero_null_material. Defined.

Lemma move_solid_mesh_roundtrip_witness :
  move_solid_mesh false (move_solid_mesh true fsi) = fsi.
Proof. by apply: move_solid_mesh_roundtrip. Defined.

Lemma update_indicator_all_vertices_witness :
  Fluid.indicator
    (nth (Fluid.CellProperty0 rat 2)
       (nth [::] (Fluid.cell_property (fluid_solver (update_indicator fe fsi)))
          0)
       0) =
  all (fun v =>
         has (fun s_cell =>
                point_inside fe (move_vertices true solid) s_cell
                  (Fluid.vertex
                     (nth (Fluid.Cell0 rat 2) (Fluid.dof_handler fluid) 0) v))
           (Solid.dof_handler solid))
    (iota 0 (vertices_per_cell 2)).
Proof. by apply: (@update_indicator_all_vertices _ _ fe fsi 0 0). Defined.

Lemma find_solid_bc_every_boundary_face_witness :
  Solid.fsi_traction
    (nth (Solid.CellProperty0 rat 2)
       (nth [::] (Solid.cell_property (solid_solver (find_solid_bc fe fsi))) 0)
       (3 * 2 + 1)) =
  face_traction fe (move_solid_mesh true fsi)
    (nth Solid.Cell0 (Solid.dof_handler solid) 0) 3 1.
Proof.
by apply: (@find_solid_bc_every_boundary_face _ _ fe fsi 0 3 1).
Defined.

Lemma interpolation_fixture (vs : seq 'cV[rat]_2) (p : 'cV[rat]_2) :
  point_in_mesh fe (Solid.set_triangulation solid vs) p ->
  interpolation_succeeds fe (Solid.set_triangulation solid vs) p.
Proof.
rewrite /point_in_mesh /interpolation_succeeds /solid_sigma /= /located /=.
by case: (in_box _ _ _).
Defined.

(** The first quadrature point of the first fluid cell lies in the moved
    solid, the first quadrature point of the second cell does not. *)
Lemma covered_fixture :
  point_in_mesh fe (solid_solver (move_solid_mesh true fsi))
    (quadrature_point fe
       (nth (Fluid.Cell0 rat 2) (Fluid.dof_handler fluid) 0) 0).
Proof.
rewrite /point_in_mesh /= /move_vertices /= /move_cell /= /move_vertex /=.
by rewrite /assign /= /in_box /= !mxE.
Defined.

Lemma uncovered_fixture :
  ~~ point_in_mesh fe (solid_solver (move_solid_mesh true fsi))
       (quadrature_point fe
          (nth (Fluid.Cell0 rat 2) (Fluid.dof_handler fluid) 1) 0).
Proof.
rewrite /point_in_mesh /= /move_vertices /= /move_cell /= /move_vertex /=.
by rewrite /assign /= /in_box /= !mxE.
Defined.

(** The first fluid cell lies in the moved solid, the second does not. *)
Example update_indicator_fixture :
  [seq [seq Fluid.indicator p | p <- row]
  | row <- Fluid.cell_property (fluid_solver (update_indicator fe fsi))] =
  [:: [:: true]; [:: false]].
Proof.
rewrite /update_indicator /= /update_indicator_cell /= /point_in_mesh /=.
rewrite /move_vertices /= /move_cell /= /move_vertex /= /assign /= /in_box /=.
by rewrite !mxE.
Qed.

Lemma pt_eq (p : 'cV[rat]_2) (x y : rat) :
  p ord0 ord0 = x -> p ord_max ord0 = y -> p = pt x y.
Proof.
move=> px py; apply/colP => i; rewrite mxE.
by case: i => [[|[|i]] lti] //=; rewrite -?px -?py; congr (p _ _);
   apply: val_inj.
Qed.

(** With gravity [(0, -1)] and solid acceleration [(0, 2)], the covered
    point gets the acceleration [(0, -3)], the other one zero. *)
Example find_fluid_bc_fixture :
  res_map (@fsi_accelerations rat 2) (find_fluid_bc fe fsi) =
  Ok [:: [:: pt 0 (- 3)]; [:: 0]].
Proof.
rewrite /find_fluid_bc /for_cellsM /= !find_fluid_bc_cellE /= /fill.
rewrite /fsi_forces /= (negbTE uncovered_fixture) covered_fixture /=.
rewrite /solid_sigma /= /located /=.
have -> /= : in_box (move_vertices true solid)
               (head Solid.Cell0 (Solid.dof_handler solid))
               (pt (1 + (0 %% 2)%:R) (0 %/ 2)%:R).
  rewrite /move_vertices /= /move_cell /= /move_vertex /= /assign /= /in_box.
  by rewrite /= !mxE.
rewrite /fsi_accelerations /=; congr (Ok [:: [:: _]; _]).
by apply: pt_eq; rewrite !mxE.
Qed.

(** With fluid pressure 7, no velocity gradient and normal [(1, 0)], the
    second quadrature point of face 3 of the solid cell gets the traction
    [(-7, 0)], whatever condition is imposed on that face. *)
Example find_solid_bc_fixture :
  Solid.fsi_traction
    (nth (Solid.CellProperty0 rat 2)
       (nth [::] (Solid.cell_property (solid_solver (find_solid_bc fe fsi))) 0)
       (3 * 2 + 1)) =
  pt (- 7) 0.
Proof.
rewrite /find_solid_bc /= /find_solid_bc_cell /= /find_solid_bc_face /=.
rewrite /assign /= /face_traction /=.
by apply: pt_eq; rewrite !mxE !big_ord_recl big_ord0 !mxE.
Qed.

Lemma find_fluid_bc_point_outside_solid_witness :
  exists2 fsi' : FSI rat 2,
    find_fluid_bc fe Cases.fsi_marked = Ok fsi' &
    let cp' := Fluid.cell_property (fluid_solver fsi') in
    [/\ Fluid.indicator
          (nth (Fluid.CellProperty0 rat 2)
             (nth [::] (Fluid.cell_property Cases.fluid_marked) 1) 0),
        (1 < size cp')%N, (0 < size (nth [::] cp' 1))%N &
        forall d, nth d (nth [::] cp' 1) 0 = Fluid.mkCellProperty false 0 0].
Proof.
have [fsi' E H] :=
  @find_fluid_bc_point_outside_solid _ _ fe Cases.fsi_marked
    (fun c q _ _ => @interpolation_fixture _ _).
exists fsi' => //.
by have [ltc ltq H'] := H 1%N 0%N isT isT isT uncovered_fixture; split.
Defined.

Lemma fsi_acceleration_ignores_fluid_solution_witness :
  exists fsi' : FSI rat 2,
    find_fluid_bc fe fsi = Ok fsi' /\
    exists2 solid_acc,
      point_value fe (move_vertices true solid) (Solid.dof_handler solid)
        (Solid.current_acceleration solid)
        (quadrature_point fe
           (nth (Fluid.Cell0 rat 2) (Fluid.dof_handler fluid) 0) 0) =
      Ok solid_acc &
      Fluid.fsi_acceleration
        (nth (Fluid.CellProperty0 rat 2)
           (nth [::] (Fluid.cell_property (fluid_solver fsi')) 0) 0) =
      \col_(i < 2) (gravity cfg i 0 - nth 0 solid_acc i).
Proof.
have ok : is_ok (find_fluid_bc fe fsi).
  by apply: find_fluid_bc_ok => c q _ _; apply: interpolation_fixture.
case E: (find_fluid_bc fe fsi) ok => [fsi'|] // _.
exists fsi'; split=> //.
have [_ H] := @fsi_acceleration_ignores_fluid_solution _ _ fe fsi [::] [::].
exact: (H fsi' 0%N 0%N E isT isT isT covered_fixture).
Defined.

End Instance.

(** * Further properties *)

Section PointHistoryMore.

Variables (R : realFieldType) (dim : nat) (Tensor4 : Type).
Variable invert : 'M[R]_dim -> 'M[R]_dim.
Variable law : Constitutive R dim Tensor4.

Local Notation update := (update invert law).
Local Notation setup := (setup invert law).
Local Notation PointHistory := (PointHistory R dim Tensor4).

(** X1: a call of [update] overwrites what an earlier call left: when the
    first displacement gradient keeps the Jacobian positive, two calls in
    a row end, or fail, like the second one alone; when it does not, the
    pair fails on a point that holds a material, also where the second
    call alone returns. *)
Theorem update_overwrites (Grad_u1 Grad_u2 : 'M[R]_dim) (this : PointHistory) :
  (this1 <- update Grad_u1 this ;; update Grad_u2 this1) =
  if material this && ~~ (0 < \det (1%:M + Grad_u1))
  then Raise ExcInternalError else update Grad_u2 this.
Proof.
case Em: (material this) => [m|] /=; last by rewrite /update Em.
case J1: (0 < \det (1%:M + Grad_u1));
  last by rewrite (update_inverted invert law Em J1).
rewrite (update_material invert law Em J1) bind_Ok /=.
set m1 := mkNeoHookean (nh_mu m) (nh_rho m) (Some (1%:M + Grad_u1)).
have Em1 : material (updated invert law m Grad_u1) = Some m1 by [].
case J2: (0 < \det (1%:M + Grad_u2)).
  rewrite (update_material invert law Em J2).
  by rewrite (update_material invert law Em1 J2).
rewrite (update_inverted invert law Em J2).
by rewrite (update_inverted invert law Em1 J2).
Qed.

(** X2: [setup] reads the configuration only to check it: two
    configurations that both name "NeoHookean" and both give a constant
    lead to the same result, whatever the constants and the densities
    are. *)
Theorem setup_ignores_constants (p p' : AllParameters R dim)
    (this : PointHistory) :
  (type p =? "NeoHookean")%string -> (type p' =? "NeoHookean")%string ->
  C p != [::] -> C p' != [::] ->
  setup p this = setup p' this.
Proof.
move=> ty ty' nz nz'.
rewrite /setup ty ty'; case: (material this) => // m.
by case: (C p) nz => // c cs _; case: (C p') nz'.
Qed.

End PointHistoryMore.

Section NonlinearSolverMore.

Variables (R : realFieldType) (dim : nat) (W V : Type).
Variable fem : Assembly R W V.
Variable parameters : AllParameters R dim.

Local Notation Solver := (HyperelasticSolver R W V).
Local Notation newton_body := (newton_body fem parameters).
Local Notation newton_loop := (newton_loop fem parameters).
Local Notation state_at := (state_at fem parameters).
Local Notation converged_at := (converged_at fem parameters).
Local Notation max_it := (max_iterations_NR parameters).


(** X4: when the time step returns, it returns the state of the [break]
    at the first value of the counter at which the convergence test holds;
    that value is at least 1 and below [max_iterations_NR]. *)
Theorem solveNonlinearTimestep_returns (sys : W) (solution_delta : V)
    (s : Solver) :
  let s0 := newton_init fem sys solution_delta in
  solveNonlinearTimestep fem parameters sys solution_delta = Ok s ->
  exists n,
    [/\ (0 < n < max_it)%N, converged_at s0 n,
        forall j, (j < n)%N -> ~~ converged_at s0 j &
        s = state_of (newton_body n (state_at s0 n))].
Proof.
move=> s0 E.
have [k ltk ck] : exists2 k, (k < max_it)%N & converged_at s0 k.
  case ex: (has (converged_at s0) (iota 0 max_it)).
    by case/hasP: ex => k; rewrite mem_iota add0n => /andP[_ ltk] ck; exists k.
  move: E; rewrite /solveNonlinearTimestep.
  rewrite (@newton_loop_exhausts _ _ _ _ fem parameters _ max_it 0)
    ?add0n ?ltnn // => j /= ltj.
  by move/hasPn: ex => /(_ j); rewrite mem_iota add0n ltj => /(_ isT).
have ex : exists k, converged_at s0 k by exists k.
case: (ex_minnP ex) => n cn minn.
have ltn : (n < max_it)%N by apply: leq_ltn_trans ltk; apply: minn.
have first j : (j < n)%N -> ~~ converged_at s0 j.
  by move=> ltj; apply/negP => /minn; rewrite leqNgt ltj.
exists n; split=> //.
  by rewrite ltn andbT; case: (n) cn.
by move: E; rewrite (solveNonlinearTimestep_converged first cn ltn) => -[].
Qed.

End NonlinearSolverMore.

Section MoveSolidMeshMore.

Variables (R : realFieldType) (dim : nat).

Local Notation Point := 'cV[R]_dim.
Local Notation mesh := (Solid.SolidSolver R dim).

Lemma size_move_vertices_back (s : mesh) :
  mesh_ok s -> size (move_vertices false s) = size (Solid.triangulation s).
Proof.
move=> ok; rewrite /move_vertices.
set t0 := nseq _ _; set V := Solid.triangulation s.
by have [] := @mirror_mesh _ _ (Solid.current_displacement s) _ V V
                (t0, V) (t0, V) ok erefl.
Qed.

Lemma move_vertices_roundtrip_back (s : mesh) :
  mesh_ok s ->
  move_vertices true (Solid.set_triangulation s (move_vertices false s)) =
  Solid.triangulation s.
Proof.
move=> ok; have szV := size_move_vertices_back ok.
rewrite {1}/move_vertices /= szV.
set t0 := nseq _ _; set V := Solid.triangulation s in szV ok *.
set V' := move_vertices false s in szV *.
have ok' : all (fun cell =>
                  all (fun v => (Solid.vertex_index cell v < size V')%N)
                    (iota 0 (vertices_per_cell dim))) (Solid.dof_handler s).
  by rewrite szV.
have [] := @mirror_mesh _ _ (Solid.current_displacement s) _ V' V
             (t0, V') (t0, V) ok' szV.
  by split.
rewrite -/(move_vertices false s) -/V'.
move=> _ szW _ sumVW; apply: (@eq_from_nth _ 0); first by rewrite szW.
by move=> i _; apply: (@addIr _ (nth 0 V' i)); rewrite sumVW addrC.
Qed.

(** X5: [move_solid_mesh(false)] followed by [move_solid_mesh(true)] also
    puts every vertex back, on a mesh whose cells name vertices of the
    triangulation. *)
Theorem move_solid_mesh_roundtrip_back (fsi : FSI R dim) :
  mesh_ok (solid_solver fsi) ->
  move_solid_mesh true (move_solid_mesh false fsi) = fsi.
Proof.
case: fsi => fl s params dt ok; rewrite /move_solid_mesh /set_solid_solver /=.
rewrite move_vertices_roundtrip_back // /Solid.set_triangulation /=.
by case: s ok.
Qed.

End MoveSolidMeshMore.

Section MoveOnce.

Variables (R : realFieldType) (dim : nat).

Local Notation Point := 'cV[R]_dim.


Lemma move_vertex_once (b : bool) (disp : seq R) (D : nat -> Point)
    (cell : Solid.Cell) (vs : seq nat) (st : seq bool * seq Point) (i : nat) :
  {in vs, forall v,
     vertex_displacement dim disp cell v = D (Solid.vertex_index cell v)} ->
  let st' := foldl (move_vertex b disp cell) st vs in
  let hit := has (fun v => Solid.vertex_index cell v == i) vs in
  nth false st'.1 i = nth false st.1 i || hit /\
  nth 0 st'.2 i =
  if ~~ nth false st.1 i && hit
  then (if b then nth 0 st.2 i + D i else nth 0 st.2 i - D i)
  else nth 0 st.2 i.
Proof.
elim: vs st => [|v vs IH] st conf /=; first by rewrite orbF andbF.
have [|-> ->] := IH (move_vertex b disp cell st v).
  by move=> w vw; apply: conf; rewrite inE vw orbT.
rewrite /move_vertex; case: ifP => [tv|ntv] /=.
  by case: eqP => [<-|_] //=; rewrite tv.
rewrite nth_set_nth nth_assign /= conf ?mem_head // eq_sym.
case: eqP => [eqi|_] //=.
by rewrite -eqi ntv orbT.
Qed.

Lemma move_cells_once (b : bool) (disp : seq R) (D : nat -> Point)
    (cells : seq Solid.Cell) (st : seq bool * seq Point) (i : nat) :
  (forall c v, (c < size cells)%N -> (v < vertices_per_cell dim)%N ->
     vertex_displacement dim disp (nth Solid.Cell0 cells c) v =
     D (Solid.vertex_index (nth Solid.Cell0 cells c) v)) ->
  let st' := foldl (move_cell b disp) st cells in
  let hit :=
    has (fun cell =>
           has (fun v => Solid.vertex_index cell v == i)
             (iota 0 (vertices_per_cell dim))) cells in
  nth false st'.1 i = nth false st.1 i || hit /\
  nth 0 st'.2 i =
  if ~~ nth false st.1 i && hit
  then (if b then nth 0 st.2 i + D i else nth 0 st.2 i - D i)
  else nth 0 st.2 i.
Proof.
elim: cells st => [|cell cells IH] st conf /=; first by rewrite orbF andbF.
have [| -> ->] := IH (move_cell b disp st cell).
  by move=> c v ltc ltv; apply: (conf c.+1).
have [| -> ->] := @move_vertex_once b disp D cell
                    (iota 0 (vertices_per_cell dim)) st i.
  by move=> v; rewrite mem_iota add0n => ltv; apply: (conf 0%N).
rewrite orbA; split=> //.
by case: (nth false st.1 i) => //=; case: (has _ (iota _ _)).
Qed.

(** X6: when the cells agree on the degrees of freedom of the vertices
    they share and name vertices of the triangulation, [move_solid_mesh]
    moves every vertex that some cell names exactly once, by the
    displacement stored at its degrees of freedom, and leaves the other
    vertices where they are. *)
Theorem move_solid_mesh_moves_once (b : bool) (fsi : FSI R dim)
    (dof : nat -> nat -> nat) (i : nat) :
  let s := solid_solver fsi in
  let x := nth 0 (Solid.triangulation s) i in
  let d : Point :=
    \col_(k < dim) nth 0 (Solid.current_displacement s) (dof i k) in
  (forall c v k,
     (c < size (Solid.dof_handler s))%N -> (v < vertices_per_cell dim)%N ->
     (k < dim)%N ->
     let cell := nth Solid.Cell0 (Solid.dof_handler s) c in
     Solid.vertex_dof_index cell v k = dof (Solid.vertex_index cell v) k) ->
  mesh_ok s ->
  nth 0 (Solid.triangulation (solid_solver (move_solid_mesh b fsi))) i =
  if named s i then (if b then x + d else x - d) else x.
Proof.
move=> s x d conf _; rewrite /move_solid_mesh /= /move_vertices.
set D := fun j => \col_(k < dim) nth 0 (Solid.current_displacement s) (dof j k).
have [|_ ->] := @move_cells_once b (Solid.current_displacement s) D
                  (Solid.dof_handler s)
                  (nseq (size (Solid.triangulation s)) false,
                   Solid.triangulation s) i.
  by move=> c v ltc ltv; apply/colP => k; rewrite !mxE conf.
by rewrite nth_nseq if_same.
Qed.

End MoveOnce.

Section Bracket.

Variables (R : realFieldType) (dim : nat).

(** What is done between the two moves of the mesh stays, and the mesh is
    back where it was. *)
Lemma move_back_fluid (fsi : FSI R dim) (fl : Fluid.FluidSolver R dim) :
  mesh_ok (solid_solver fsi) ->
  move_solid_mesh false (set_fluid_solver (move_solid_mesh true fsi) fl) =
  set_fluid_solver fsi fl.
Proof.
case: fsi => fl0 s params dt ok.
rewrite /move_solid_mesh /set_solid_solver /set_fluid_solver /=.
rewrite move_vertices_roundtrip // /Solid.set_triangulation /=.
by case: s ok.
Qed.

Lemma move_back_solid (fsi : FSI R dim)
    (cp : seq (seq (Solid.CellProperty R dim))) :
  mesh_ok (solid_solver fsi) ->
  let fsi1 := move_solid_mesh true fsi in
  move_solid_mesh false
    (set_solid_solver fsi1 (Solid.set_cell_property (solid_solver fsi1) cp)) =
  set_solid_solver fsi (Solid.set_cell_property (solid_solver fsi) cp).
Proof.
case: fsi => fl0 s params dt ok /=.
rewrite /move_solid_mesh /set_solid_solver /=.
have:= move_vertices_roundtrip ok; rewrite /move_vertices /= => ->.
by case: s ok.
Qed.

End Bracket.

Section IndicatorMore.

Variables (R : realFieldType) (dim : nat).
Variable fe : Interpolation R dim.

Local Notation x0 := (Fluid.CellProperty0 R dim).
Local Notation c0 := (Fluid.Cell0 R dim).

(** X7: [update_indicator] changes the cell data of the fluid and nothing
    else (the solid mesh is back where it was), and in the cell data it
    leaves the acceleration and the stress of every quadrature point as
    they were. *)
Theorem update_indicator_changes_indicators_only (fsi : FSI R dim)
    (c q : nat) :
  let fl := fluid_solver fsi in
  let fl' := fluid_solver (update_indicator fe fsi) in
  let p := nth x0 (nth [::] (Fluid.cell_property fl) c) q in
  let p' := nth x0 (nth [::] (Fluid.cell_property fl') c) q in
  mesh_ok (solid_solver fsi) ->
  (c < size (Fluid.dof_handler fl))%N ->
  (c < size (Fluid.cell_property fl))%N ->
  [/\ update_indicator fe fsi =
      set_fluid_solver fsi
        (Fluid.set_cell_property fl (Fluid.cell_property fl')),
      Fluid.fsi_acceleration p' = Fluid.fsi_acceleration p &
      Fluid.fsi_stress p' = Fluid.fsi_stress p].
Proof.
move=> fl fl' p p' ok ltc ltp.
have [b [n ->]] : exists b n,
    p' = if (q < n)%N then set_indicator b p else p.
  rewrite /p' /fl' /update_indicator /= (nth_for_cells c0) //.
  rewrite /update_indicator_cell.
  have := nth_foldl_assign x0 (fun _ => set_indicator _) 0 _ _ q.
  by rewrite /= => ->; eexists; eexists.
split; [|by case: ifP|by case: ifP].
by rewrite /fl' /update_indicator /=; apply: move_back_fluid.
Qed.

End IndicatorMore.

Section SolidBCMore.

Variables (R : realFieldType) (dim : nat).
Variable fe : Interpolation R dim.

Local Notation x0 := (Solid.CellProperty0 R dim).

Lemma nth_find_solid_bc_skip (fsi : FSI R dim) (s_cell : Solid.Cell)
    (ptr : seq (Solid.CellProperty R dim)) (m k j : nat) :
  let n := Solid.n_face_q_points (solid_solver fsi) in
  (forall f, (m <= f < m + k)%N ->
     ~~ (Solid.at_boundary s_cell f && (f * n <= j < f * n + n)%N)) ->
  nth x0 (foldl (find_solid_bc_face fe fsi s_cell) ptr (iota m k)) j =
  nth x0 ptr j.
Proof.
move=> n; elim: k m ptr => [|k IH] m ptr skip //=.
rewrite IH; last first.
  rewrite nth_find_solid_bc_face (negbTE (skip m _)) //.
  by rewrite leqnn addnS ltnS leq_addr.
by move=> f /andP[ltf lef]; apply: skip; rewrite (ltnW ltf) addnS -addSn.
Qed.

(** X8: [find_solid_bc] changes the cell data of the solid and nothing
    else, and in the cell data it leaves the traction at the quadrature
    points of a face that is not on the boundary as it was. *)
Theorem find_solid_bc_skips_inner_faces (fsi : FSI R dim) (c f q : nat) :
  let s := solid_solver fsi in
  let s' := solid_solver (find_solid_bc fe fsi) in
  let n := Solid.n_face_q_points s in
  mesh_ok s ->
  (c < size (Solid.dof_handler s))%N ->
  (c < size (Solid.cell_property s))%N ->
  (q < n)%N ->
  ~~ Solid.at_boundary (nth Solid.Cell0 (Solid.dof_handler s) c) f ->
  find_solid_bc fe fsi =
  set_solid_solver fsi (Solid.set_cell_property s (Solid.cell_property s')) /\
  nth x0 (nth [::] (Solid.cell_property s') c) (f * n + q) =
  nth x0 (nth [::] (Solid.cell_property s) c) (f * n + q).
Proof.
move=> s s' n ok ltc ltp ltq nb; split.
  by rewrite /s' /find_solid_bc move_back_solid.
rewrite /s' /find_solid_bc /= (nth_for_cells Solid.Cell0) //.
rewrite /find_solid_bc_cell; apply: nth_find_solid_bc_skip => f' _ /=.
apply/negP => /andP[bf' /andP[le1 lt2]].
have n_gt0 : (0 < n)%N by apply: leq_trans ltq.
have eqf : f' = f.
  have divj : ((f * n + q) %/ n)%N = f by rewrite divnMDl // divn_small ?addn0.
  have le1' : (f' <= f)%N by rewrite -divj leq_divRL.
  have le2' : (f <= f')%N.
    by rewrite -ltnS -divj ltn_divLR // mulSn [(n + _)%N]addnC.
  by apply/eqP; rewrite eqn_leq le1' le2'.
by rewrite eqf (negbTE nb) in bf'.
Qed.

End SolidBCMore.

Section FluidBCMore.

Variables (R : realFieldType) (dim : nat).
Variable fe : Interpolation R dim.

Local Notation x0 := (Fluid.CellProperty0 R dim).
Local Notation c0 := (Fluid.Cell0 R dim).

Lemma fsi_forces_inv (fsi : FSI R dim) (f_cell : Fluid.Cell R dim) (q : nat)
    (p : Fluid.CellProperty R dim) :
  let s := solid_solver fsi in
  let fl := fluid_solver fsi in
  let point := quadrature_point fe f_cell q in
  fsi_forces fe fsi f_cell q = Ok p ->
  Fluid.indicator p = point_in_mesh fe s point /\
  (point_in_mesh fe s point ->
   interpolation_succeeds fe s point /\
   exists2 sigma, solid_sigma fe s point = Ok sigma &
     Fluid.fsi_stress p =
     - get_pressure_values fe (Fluid.present_solution fl) f_cell q *: 1%:M
     + viscosity (parameters fsi)
       *: get_function_symmetric_gradients fe (Fluid.present_solution fl)
            f_cell q
     - sigma).
Proof.
rewrite /fsi_forces /interpolation_succeeds /=.
case: (point_in_mesh _ _ _) => /=; last by case=> <-.
case: (point_value _ _ _ _ _) => [solid_acc|e] //=.
case: (solid_sigma _ _ _) => [sigma|e] //= -[<-]; split=> // _; split=> //.
by exists sigma.
Qed.

(** X9: when [find_fluid_bc] returns, the indicator of every quadrature
    point of the fluid tells whether that point itself lies in the moved
    solid mesh. *)
Theorem find_fluid_bc_indicator_per_point (fsi fsi' : FSI R dim) (c q : nat) :
  let fsi1 := move_solid_mesh true fsi in
  let fl := fluid_solver fsi in
  find_fluid_bc fe fsi = Ok fsi' ->
  (c < size (Fluid.dof_handler fl))%N ->
  (c < size (Fluid.cell_property fl))%N ->
  (q < Fluid.n_q_points fl)%N ->
  Fluid.indicator
    (nth x0 (nth [::] (Fluid.cell_property (fluid_solver fsi')) c) q) =
  point_in_mesh fe (solid_solver fsi1)
    (quadrature_point fe (nth c0 (Fluid.dof_handler fl) c) q).
Proof.
move=> fsi1 fl E ltc ltp ltq.
by have [] := fsi_forces_inv (find_fluid_bc_nth E ltc ltp ltq).
Qed.

(** X10: when [find_fluid_bc] returns, the stress stored at a quadrature
    point in the moved solid mesh is [-p I + mu sym(grad v)] of the fluid
    minus the stress of the solid interpolated at the point. *)
Theorem find_fluid_bc_stress_difference (fsi fsi' : FSI R dim) (c q : nat) :
  let fsi1 := move_solid_mesh true fsi in
  let fl := fluid_solver fsi in
  let f_cell := nth c0 (Fluid.dof_handler fl) c in
  let point := quadrature_point fe f_cell q in
  find_fluid_bc fe fsi = Ok fsi' ->
  (c < size (Fluid.dof_handler fl))%N ->
  (c < size (Fluid.cell_property fl))%N ->
  (q < Fluid.n_q_points fl)%N ->
  point_in_mesh fe (solid_solver fsi1) point ->
  exists2 sigma,
    solid_sigma fe (solid_solver fsi1) point = Ok sigma &
    Fluid.fsi_stress
      (nth x0 (nth [::] (Fluid.cell_property (fluid_solver fsi')) c) q) =
    - get_pressure_values fe (Fluid.present_solution fl) f_cell q *: 1%:M
    + viscosity (parameters fsi)
      *: get_function_symmetric_gradients fe (Fluid.present_solution fl)
           f_cell q
    - sigma.
Proof.
move=> fsi1 fl f_cell point E ltc ltp ltq ins.
by have [_ /(_ ins) []] := fsi_forces_inv (find_fluid_bc_nth E ltc ltp ltq).
Qed.

(** X11: [find_fluid_bc] throws as soon as the interpolation of a solid
    field fails at one quadrature point that lies in the moved solid
    mesh. *)
Theorem find_fluid_bc_raises (fsi : FSI R dim) (c q : nat) :
  let fsi1 := move_solid_mesh true fsi in
  let fl := fluid_solver fsi in
  let point := quadrature_point fe (nth c0 (Fluid.dof_handler fl) c) q in
  (c < size (Fluid.dof_handler fl))%N ->
  (c < size (Fluid.cell_property fl))%N ->
  (q < Fluid.n_q_points fl)%N ->
  point_in_mesh fe (solid_solver fsi1) point ->
  ~~ interpolation_succeeds fe (solid_solver fsi1) point ->
  is_ok (find_fluid_bc fe fsi) = false.
Proof.
move=> fsi1 fl point ltc ltp ltq ins; apply: contraNF.
case E: (find_fluid_bc fe fsi) => [fsi'|] // _.
by have [_ /(_ ins) []] := fsi_forces_inv (find_fluid_bc_nth E ltc ltp ltq).
Qed.

(** X12: when [find_fluid_bc] returns, it has changed the cell data of the
    fluid and nothing else: the solid mesh is back where it was. *)
Theorem find_fluid_bc_changes_fluid_properties_only (fsi fsi' : FSI R dim) :
  mesh_ok (solid_solver fsi) ->
  find_fluid_bc fe fsi = Ok fsi' ->
  fsi' =
  set_fluid_solver fsi
    (Fluid.set_cell_property (fluid_solver fsi)
       (Fluid.cell_property (fluid_solver fsi'))).
Proof.
move=> ok; rewrite /find_fluid_bc.
case: (for_cellsM _ _ _) => [cp|e] //= -[<-].
by rewrite move_solid_mesh_fluid /= move_back_fluid.
Qed.

End FluidBCMore.

Lemma foldM_invariant (A B : Type) (P : A -> Prop) (ok : pred B)
    (f : A -> B -> result A) (l : seq B) (a a' : A) :
  (forall a x a', ok x -> P a -> f a x = Ok a' -> P a') ->
  all ok l -> P a -> foldM f a l = Ok a' -> P a'.
Proof.
move=> step; elim: l a => [|x l IH] a /=; first by move=> _ Pa [<-].
case/andP=> okx okl Pa; case E: (f a x) => [a1|e] //=.
by apply: IH => //; apply: step E.
Qed.

Lemma assign_same (T : Type) (x0 : T) (s : seq T) (i : nat) (f : T -> T) :
  (i < size s)%N -> f (nth x0 s i) = nth x0 s i -> assign x0 s i f = s.
Proof.
move=> lti fi; apply: (@eq_from_nth _ x0); first by rewrite size_assign.
by move=> j _; rewrite nth_assign; case: eqP => [->|].
Qed.

Section SolidDisplacementTheory.

Variables (R : realFieldType) (dim : nat).
Variable fluid_point_value :
  seq (Fluid.Cell R dim) -> Fluid.BlockVector R -> 'cV[R]_dim ->
  result (seq R).

Local Notation update_solid_displacement :=
  (update_solid_displacement fluid_point_value).

Lemma move_back (fsi : FSI R dim) :
  mesh_ok (solid_solver fsi) ->
  move_solid_mesh false (move_solid_mesh true fsi) = fsi.
Proof.
by move=> ok; have:= move_back_fluid (fluid_solver fsi) ok; case: fsi ok.
Qed.

(** X13: when [update_solid_displacement] returns, it has changed the
    displacement of the solid and nothing else: the mesh is moved back with
    the old displacement before the new one is stored. *)
Theorem update_solid_displacement_changes_displacement_only
    (n_dofs : nat) (fsi fsi' : FSI R dim) :
  mesh_ok (solid_solver fsi) ->
  update_solid_displacement n_dofs fsi = Ok fsi' ->
  fsi' =
  set_solid_solver fsi
    (set_current_displacement (solid_solver fsi)
       (Solid.current_displacement (solid_solver fsi'))).
Proof.
move=> ok; rewrite /update_solid_displacement.
case: (foldM _ _ _) => [st|e] //; rewrite bind_Ok; cbv zeta.
by rewrite move_back // => -[<-].
Qed.

Lemma add_velocity_rest (dt : R) (cell : Solid.Cell) (v : nat)
    (tmp disp : seq R) :
  (forall k, (k < dim)%N -> nth 0 tmp k = 0) ->
  all (fun k => (Solid.vertex_dof_index cell v k < size disp)%N) (iota 0 dim) ->
  add_velocity dim dt cell v tmp disp = disp.
Proof.
move=> rest; rewrite /add_velocity.
have: {in iota 0 dim, forall k, nth 0 tmp k = 0}.
  by move=> k; rewrite mem_iota add0n => /rest.
elim: (iota 0 dim) => [|k ks IH] //= restk /andP[ltk ltks].
rewrite assign_same ?restk ?mem_head ?mul0r ?addr0 //.
by apply: IH => // j jks; apply: restk; rewrite inE jks orbT.
Qed.

(** X14: in a fluid at rest (every interpolated velocity is zero)
    [update_solid_displacement] changes nothing at all, when the degrees of
    freedom of the cells are indices of the displacement vector. *)
Theorem update_solid_displacement_fluid_at_rest
    (n_dofs : nat) (fsi fsi' : FSI R dim) :
  let fl := fluid_solver fsi in
  (forall point tmp k,
     fluid_point_value (Fluid.dof_handler fl) (Fluid.present_solution fl) point
     = Ok tmp ->
     (k < dim)%N -> nth 0 tmp k = 0) ->
  mesh_ok (solid_solver fsi) -> dofs_ok (solid_solver fsi) ->
  update_solid_displacement n_dofs fsi = Ok fsi' -> fsi' = fsi.
Proof.
move=> fl rest ok dok; rewrite /update_solid_displacement.
set disp := Solid.current_displacement _.
case E: (foldM _ _ _) => [st|e] //; rewrite bind_Ok; cbv zeta.
rewrite move_back // => -[<-].
have -> : st.2 = disp.
  apply: (foldM_invariant (P := fun st => st.2 = disp) _ dok _ E) => //.
  move=> a cell a' okc Pa; rewrite /displace_cell.
  apply: (foldM_invariant (P := fun st => st.2 = disp) _ okc Pa).
  move=> {a' Pa}a v a' okv Pa; rewrite /displace_vertex.
  case: ifP => _; first by case=> <-.
  case Et: (fluid_point_value _ _ _) => [tmp|e'] //= -[<-] /=.
  rewrite Pa add_velocity_rest //.
  by move=> k ltk; apply: rest Et ltk.
by rewrite /disp; case: (fsi) => fl0 [].
Qed.

End SolidDisplacementTheory.

Lemma mapM_map (A B C : Type) (f : A -> result B) (g : A -> C) (h : B -> C)
    (l : seq A) (r : seq B) :
  (forall x y, f x = Ok y -> h y = g x) ->
  mapM f l = Ok r -> map h r = map g l.
Proof.
move=> fgh; elim: l r => [|x l IH] r /=; first by case=> <-.
case fx: (f x) => [y|e] //=; case fl: (mapM f l) => [ys|e] //= -[<-] /=.
by rewrite (fgh _ _ fx) (IH _ fl).
Qed.

Lemma map_zip1 (A B C : Type) (g : A -> C) (a : seq A) (b : seq B) :
  size a = size b -> [seq g x.1 | x <- zip a b] = map g a.
Proof. by elim: a b => [|x a IH] [|y b] //= [sz]; rewrite IH. Qed.

Lemma map_zip2 (A B C : Type) (g : B -> C) (a : seq A) (b : seq B) :
  size a = size b -> [seq g x.2 | x <- zip a b] = map g b.
Proof. by elim: a b => [|x a IH] [|y b] //= [sz]; rewrite IH. Qed.

Section ScratchTheory.

Variables (R : realFieldType) (dim : nat).

Local Notation Scratch := (ScratchDataRHS R dim).

Lemma reset_row_nth (n q : nat) (s : Scratch) (q' k : nat) :
  nth 0 (nth [::] (Nx (reset_row n q s)) q') k =
  (if (q' == q) && (k < n)%N then 0 else nth 0 (nth [::] (Nx s) q') k) /\
  nth 0 (nth [::] (symm_grad_Nx (reset_row n q s)) q') k =
  (if (q' == q) && (k < n)%N then 0
   else nth 0 (nth [::] (symm_grad_Nx s) q') k).
Proof.
rewrite /reset_row.
have -> : (k < n)%N = (k \in iota 0 n) by rewrite mem_iota add0n.
elim: (iota 0 n) s => [|j js IH] s /=; first by rewrite andbF.
set s1 := mkScratchDataRHS _ _; have [-> ->] := IH s1.
rewrite inE /s1 /= !nth_assign.
case: (q' =P q) => [->|_] //=; rewrite !nth_set_nth /=.
by case: (k \in js); rewrite ?orbT //= orbF; case: eqP.
Qed.

(** X15: [ScratchDataRHS::reset] runs its inner loop up to the number of
    quadrature points, not up to the number of degrees of freedom: when
    the rows are at least [numQuadPts] long and [reset] returns, it has
    cleared the entries below [numQuadPts] of every row and left the
    others as they were. *)
Theorem ScratchDataRHS_reset_clears_numQuadPts_entries (s s' : Scratch)
    (q k : nat) :
  (size (Nx s) <= size (nth [::] (Nx s) 0))%N ->
  ScratchDataRHS_reset s = Ok s' -> (q < size (Nx s))%N ->
  nth 0 (nth [::] (Nx s') q) k =
  (if (k < size (Nx s))%N then 0 else nth 0 (nth [::] (Nx s) q) k) /\
  nth 0 (nth [::] (symm_grad_Nx s') q) k =
  (if (k < size (Nx s))%N then 0 else nth 0 (nth [::] (symm_grad_Nx s) q) k).
Proof.
move=> _.
rewrite /ScratchDataRHS_reset; set n := size (Nx s); set m := size (nth _ _ _).
have -> : (q < n)%N = (q \in iota 0 n) by rewrite mem_iota add0n.
suff gen (qs : seq nat) (s1 : Scratch) :
    foldM (fun s q =>
             if size (nth [::] (Nx s) q) != m then Raise ExcInternalError
             else if size (nth [::] (symm_grad_Nx s) q) != m
             then Raise ExcInternalError else Ok (reset_row n q s)) s1 qs
    = Ok s' ->
    nth 0 (nth [::] (Nx s') q) k =
    (if (q \in qs) && (k < n)%N then 0 else nth 0 (nth [::] (Nx s1) q) k) /\
    nth 0 (nth [::] (symm_grad_Nx s') q) k =
    (if (q \in qs) && (k < n)%N then 0
     else nth 0 (nth [::] (symm_grad_Nx s1) q) k).
  by move=> /gen[-> ->] ->.
elim: qs s1 => [|j js IH] s1 /=; first by case=> <-.
case: ifP => // _; case: ifP => // _; rewrite bind_Ok => /IH[-> ->].
have [-> ->] := reset_row_nth n j s1 q k.
rewrite inE; case: (q =P j) => //= _.
by case: (q \in js); case: (k < n)%N.
Qed.

End ScratchTheory.

Section QPHTheory.

Variables (R : realFieldType) (dim : nat) (Tensor4 : Type).
Variable invert : 'M[R]_dim -> 'M[R]_dim.
Variable law : Constitutive R dim Tensor4.
Variables CellIterator V : Type.
Variable get_function_gradients :
  CellIterator -> V -> seq 'M[R]_dim -> seq 'M[R]_dim.

Local Notation updateLocalQPH :=
  (updateLocalQPH invert law get_function_gradients).
Local Notation PointHistory := (PointHistory R dim Tensor4).

Lemma reset_prefix (g : seq 'M[R]_dim) (n : nat) :
  (n <= size g)%N ->
  let g' := foldl (fun g q => set_nth 0 g q 0) g (iota 0 n) in
  size g' = size g /\
  forall i, nth 0 g' i = if (i < n)%N then 0 else nth 0 g i.
Proof.
elim: n => [|n IH] ltn; first by split.
have [sz nthg] := IH (ltnW ltn).
rewrite -addn1 iotaD foldl_cat /= add0n; split=> [|i].
  by rewrite size_set_nth sz; apply/maxn_idPr.
rewrite nth_set_nth /= nthg addn1 ltnS [(i <= n)%N]leq_eqVlt.
by case: eqP.
Qed.

Lemma ScratchDataQPH_reset_zero (s : ScratchDataQPH R dim V) :
  grad_u (ScratchDataQPH_reset s) = nseq (size (grad_u s)) 0.
Proof.
have [sz nthg] := reset_prefix (leqnn (size (grad_u s))).
apply: (@eq_from_nth _ 0); first by rewrite size_nseq.
by move=> i; rewrite /= sz nthg nth_nseq => ->.
Qed.

(** X16: when [updateLocalQPH] returns, the cell has as many points as
    before, the scratch gradients are those of the solution on a cleared
    vector, the material of point [q] holds [F = I + grad_u[q]], and the
    material constants of every point are the ones it had. *)
Theorem updateLocalQPH_stores_gradients (numQuadPts : nat)
    (cell : CellIterator) (scratch scratch' : ScratchDataQPH R dim V)
    (lqph lqph' : seq PointHistory) :
  updateLocalQPH numQuadPts cell scratch lqph = Ok (scratch', lqph') ->
  [/\ size lqph' = numQuadPts,
      grad_u scratch' =
      get_function_gradients cell (solution scratch) (nseq numQuadPts 0),
      [seq stored_F p | p <- lqph'] =
      [seq Some (1%:M + nth 0 (grad_u scratch') q) | q <- iota 0 numQuadPts] &
      [seq omap (fun m => (nh_mu m, nh_rho m)) (material p) | p <- lqph'] =
      [seq omap (fun m => (nh_mu m, nh_rho m)) (material p) | p <- lqph]].
Proof.
rewrite /updateLocalQPH; case: eqP => // szl; case: eqP => // szg.
cbv zeta; rewrite ScratchDataQPH_reset_zero szg [solution _]/=.
set G := get_function_gradients _ _ _.
case E: (mapM _ _) => [l'|e] //= -[<- <-] /=.
have szz : size (zip (iota 0 numQuadPts) lqph) = numQuadPts.
  by rewrite size_zip size_iota szl minnn.
split=> //.
- have:= mapM_map (g := fun=> tt) (h := fun=> tt) (fun _ _ _ => erefl) E.
  by move/(congr1 size); rewrite !size_map szz.
- rewrite (mapM_map (g := fun qp => Some (1%:M + nth 0 G qp.1)) _ E).
    move=> [q p] y /=; rewrite /update /updateData.
    by case: (material p) => //= m; case: (0 < \det _) => //= -[<-].
  by rewrite (map_zip1 (fun q => Some (1%:M + nth 0 G q))) // size_iota szl.
- rewrite (mapM_map (g := fun qp : nat * PointHistory =>
                 omap (fun m => (nh_mu m, nh_rho m)) (material qp.2)) _ E).
    move=> [q p] y /=; rewrite /update /updateData.
    by case: (material p) => //= m; case: (0 < \det _) => //= -[<-].
  by rewrite (map_zip2 (fun p : PointHistory =>
                          omap (fun m => (nh_mu m, nh_rho m)) (material p)))
       // size_iota szl.
Qed.

Lemma update_constants (Grad_u : 'M[R]_dim) (p1 p2 : PointHistory) :
  omap (fun m => (nh_mu m, nh_rho m)) (material p1) =
  omap (fun m => (nh_mu m, nh_rho m)) (material p2) ->
  update invert law Grad_u p1 = update invert law Grad_u p2.
Proof.
rewrite /update; case: (material p1) => [[mu1 rho1 F1]|];
  case: (material p2) => [[mu2 rho2 F2]|] //=.
by case=> -> ->.
Qed.

(** X17: the result of [updateLocalQPH] depends on the quadrature point
    data only through the material constants: what earlier updates left
    in the points has no influence. *)
Theorem updateLocalQPH_forgets_history (numQuadPts : nat)
    (cell : CellIterator) (scratch : ScratchDataQPH R dim V)
    (lqph1 lqph2 : seq PointHistory) :
  [seq omap (fun m => (nh_mu m, nh_rho m)) (material p) | p <- lqph1] =
  [seq omap (fun m => (nh_mu m, nh_rho m)) (material p) | p <- lqph2] ->
  updateLocalQPH numQuadPts cell scratch lqph1 =
  updateLocalQPH numQuadPts cell scratch lqph2.
Proof.
move=> eqc; rewrite /updateLocalQPH.
have -> : size lqph1 = size lqph2 by have:= congr1 size eqc; rewrite !size_map.
case: ifP => // _; case: ifP => // _; cbv zeta.
set G := grad_u _; congr (bind _ _).
elim: (iota 0 numQuadPts) lqph1 lqph2 eqc {G}(G : seq _)
  => [|q qs IH] [|p1 l1] [|p2 l2] //= [cp cl] G.
by rewrite (update_constants _ cp) (IH _ _ cl).
Qed.

End QPHTheory.

Section RefineTheory.

Variables (R : realFieldType) (dim : nat).
Variable distance : 'cV[R]_dim -> 'cV[R]_dim -> R.
Variable f_center : Fluid.Cell R dim -> 'cV[R]_dim.
Variable s_center : seq 'cV[R]_dim -> Solid.Cell -> 'cV[R]_dim.

Lemma std_min_lt (a b t : R) : (std_min a b < t) = (a < t) || (b < t).
Proof.
rewrite /std_min; case: (ltP b a) => [ltba|leab].
  case: (ltP b t) => [|letb]; rewrite ?orbT // orbF.
  by apply/esym/negbTE; rewrite -leNgt (le_trans letb) // ltW.
case: (ltP a t) => //= leta.
by apply/esym/negbTE; rewrite -leNgt (le_trans leta).
Qed.

Lemma far_away : (1000 < 10^-1 :> R) = false.
Proof.
apply/negbTE; rewrite -leNgt (@le_trans _ _ 1) ?ler1n //.
by rewrite invf_le1 ?ler1n // ltr0n.
Qed.

Lemma solid_distance_lt (d : Solid.Cell -> R) (cells : seq Solid.Cell)
    (a t : R) :
  (foldl (fun dist c => std_min (d c) dist) a cells < t) =
  (a < t) || has (fun c => d c < t) cells.
Proof.
elim: cells a => [|c cs IH] a /=; first by rewrite orbF.
by rewrite IH std_min_lt orbA [(_ < _) || (a < _)]orbC.
Qed.

(** X18: [refine_mesh] flags a fluid cell for refinement exactly when the
    centre of some cell of the moved solid mesh is closer than 0.1 to the
    centre of the fluid cell, and for coarsening otherwise; with no solid
    cell every fluid cell is flagged for coarsening. *)
Theorem refine_flags_near_solid (fsi : FSI R dim) :
  let s1 := solid_solver (move_solid_mesh true fsi) in
  refine_flags distance f_center s_center fsi =
  [seq has (fun s_cell =>
              distance (f_center f_cell)
                (s_center (Solid.triangulation s1) s_cell) < 10^-1)
         (Solid.dof_handler s1)
  | f_cell <- Fluid.dof_handler (fluid_solver fsi)].
Proof.
move=> s1; rewrite /refine_flags /=; apply: eq_map => f_cell.
by rewrite /solid_distance solid_distance_lt far_away.
Qed.

End RefineTheory.

(** * The further cases *)

Section Further.

Import Fixture Cases.

Lemma setup_ignores_constants_witness :
  setup invmx law cfg ph0 = setup invmx law cfg_steel ph0.
Proof. by apply: setup_ignores_constants. Defined.


Lemma solveNonlinearTimestep_returns_witness :
  exists (s : HyperelasticSolver rat rat rat) (n : nat),
    let s0 := newton_init spring 0 0 in
    [/\ solveNonlinearTimestep spring (cfg_passes 3) 0 0 = Ok s,
        (0 < n < 3)%N, converged_at spring (cfg_passes 3) s0 n,
        forall j, (j < n)%N -> ~~ converged_at spring (cfg_passes 3) s0 j &
        s = state_of (newton_body spring (cfg_passes 3) n
                        (state_at spring (cfg_passes 3) s0 n))].
Proof.
case E: (solveNonlinearTimestep spring (cfg_passes 3) 0 0) => [s|e].
  have [n [n3 cn first sE]] := solveNonlinearTimestep_returns E.
  by exists s, n; split.
by move: E.
Defined.

Lemma move_solid_mesh_roundtrip_back_witness :
  move_solid_mesh true (move_solid_mesh false fsi) = fsi.
Proof. by apply: move_solid_mesh_roundtrip_back. Defined.

Lemma move_solid_mesh_moves_once_witness :
  nth 0 (Solid.triangulation (solid_solver (move_solid_mesh true fsi))) 3 =
  if named solid 3 then
    nth 0 (Solid.triangulation solid) 3 +
    \col_(k < 2) nth 0 (Solid.current_displacement solid) (dof 3 k)
  else nth 0 (Solid.triangulation solid) 3.
Proof.
apply: (@move_solid_mesh_moves_once _ _ true fsi dof 3) => //.
by case=> [|c] //.
Defined.

Lemma update_indicator_changes_indicators_only_witness :
  let p := nth (Fluid.CellProperty0 rat 2)
             (nth [::] (Fluid.cell_property fluid) 0) 0 in
  let p' := nth (Fluid.CellProperty0 rat 2)
              (nth [::]
                 (Fluid.cell_property (fluid_solver (update_indicator fe fsi)))
                 0) 0 in
  [/\ update_indicator fe fsi =
      set_fluid_solver fsi
        (Fluid.set_cell_property fluid
           (Fluid.cell_property (fluid_solver (update_indicator fe fsi)))),
      Fluid.fsi_acceleration p' = Fluid.fsi_acceleration p &
      Fluid.fsi_stress p' = Fluid.fsi_stress p].
Proof.
by apply: (@update_indicator_changes_indicators_only _ _ fe fsi 0 0).
Defined.

Lemma find_solid_bc_skips_inner_faces_witness :
  find_solid_bc fe fsi_inner =
  set_solid_solver fsi_inner
    (Solid.set_cell_property solid_inner
       (Solid.cell_property (solid_solver (find_solid_bc fe fsi_inner)))) /\
  nth (Solid.CellProperty0 rat 2)
    (nth [::] (Solid.cell_property (solid_solver (find_solid_bc fe fsi_inner)))
       0) (1 * 2 + 1) =
  nth (Solid.CellProperty0 rat 2)
    (nth [::] (Solid.cell_property solid_inner) 0) (1 * 2 + 1).
Proof.
by apply: (@find_solid_bc_skips_inner_faces _ _ fe fsi_inner 0 1 1).
Defined.

Lemma find_fluid_bc_fixture_ok : is_ok (find_fluid_bc fe fsi).
Proof.
by apply: find_fluid_bc_ok => c q _ _; apply: interpolation_fixture.
Qed.

Lemma find_fluid_bc_indicator_per_point_witness :
  exists2 fsi' : FSI rat 2,
    find_fluid_bc fe fsi = Ok fsi' &
    Fluid.indicator
      (nth (Fluid.CellProperty0 rat 2)
         (nth [::] (Fluid.cell_property (fluid_solver fsi')) 1) 0) =
    point_in_mesh fe (solid_solver (move_solid_mesh true fsi))
      (quadrature_point fe
         (nth (Fluid.Cell0 rat 2) (Fluid.dof_handler fluid) 1) 0).
Proof.
case E: (find_fluid_bc fe fsi) find_fluid_bc_fixture_ok => [fsi'|] // _.
exists fsi' => //.
exact: (@find_fluid_bc_indicator_per_point _ _ fe fsi fsi' 1 0 E).
Defined.

Lemma find_fluid_bc_stress_difference_witness :
  exists fsi' : FSI rat 2,
    find_fluid_bc fe fsi = Ok fsi' /\
    exists2 sigma,
      solid_sigma fe (solid_solver (move_solid_mesh true fsi))
        (quadrature_point fe
           (nth (Fluid.Cell0 rat 2) (Fluid.dof_handler fluid) 0) 0) =
      Ok sigma &
      Fluid.fsi_stress
        (nth (Fluid.CellProperty0 rat 2)
           (nth [::] (Fluid.cell_property (fluid_solver fsi')) 0) 0) =
      - get_pressure_values fe (Fluid.present_solution fluid)
          (nth (Fluid.Cell0 rat 2) (Fluid.dof_handler fluid) 0) 0 *: 1%:M
      + viscosity cfg
        *: get_function_symmetric_gradients fe (Fluid.present_solution fluid)
             (nth (Fluid.Cell0 rat 2) (Fluid.dof_handler fluid) 0) 0
      - sigma.
Proof.
case E: (find_fluid_bc fe fsi) find_fluid_bc_fixture_ok => [fsi'|] // _.
exists fsi'; split=> //.
exact: (@find_fluid_bc_stress_difference _ _ fe fsi fsi' 0 0 E isT isT isT
          covered_fixture).
Defined.

Lemma find_fluid_bc_raises_witness :
  is_ok (find_fluid_bc fe_lost fsi) = false.
Proof.
apply: (@find_fluid_bc_raises _ _ fe_lost fsi 0 0) => //.
exact: covered_fixture.
Defined.

Lemma find_fluid_bc_changes_fluid_properties_only_witness :
  exists2 fsi' : FSI rat 2,
    find_fluid_bc fe fsi = Ok fsi' &
    fsi' =
    set_fluid_solver fsi
      (Fluid.set_cell_property fluid (Fluid.cell_property (fluid_solver fsi'))).
Proof.
case E: (find_fluid_bc fe fsi) find_fluid_bc_fixture_ok => [fsi'|] // _.
by exists fsi' => //; apply: (find_fluid_bc_changes_fluid_properties_only _ E).
Defined.

Lemma update_solid_displacement_fixture_ok :
  is_ok (update_solid_displacement at_rest 8 fsi).
Proof. by []. Qed.

Lemma update_solid_displacement_changes_displacement_only_witness :
  exists2 fsi' : FSI rat 2,
    update_solid_displacement at_rest 8 fsi = Ok fsi' &
    fsi' =
    set_solid_solver fsi
      (set_current_displacement solid
         (Solid.current_displacement (solid_solver fsi'))).
Proof.
case E: (update_solid_displacement at_rest 8 fsi)
  update_solid_displacement_fixture_ok => [fsi'|] // _.
exists fsi' => //.
by apply: (update_solid_displacement_changes_displacement_only _ E).
Defined.

Lemma update_solid_displacement_fluid_at_rest_witness :
  exists2 fsi' : FSI rat 2,
    update_solid_displacement at_rest 8 fsi = Ok fsi' & fsi' = fsi.
Proof.
case E: (update_solid_displacement at_rest 8 fsi)
  update_solid_displacement_fixture_ok => [fsi'|] // _.
exists fsi' => //.
apply: (update_solid_displacement_fluid_at_rest _ _ _ E) => //.
by move=> point tmp [|[|k]] // [<-].
Defined.

Lemma ScratchDataRHS_reset_clears_numQuadPts_entries_witness :
  exists2 s' : ScratchDataRHS rat 2,
    ScratchDataRHS_reset rhs = Ok s' &
    nth 0 (nth [::] (Nx s') 1) 2 = 6 /\
    nth 0 (nth [::] (symm_grad_Nx s') 1) 2 = 1%:M.
Proof.
case E: (ScratchDataRHS_reset rhs) => [s'|] //.
exists s' => //.
exact: (@ScratchDataRHS_reset_clears_numQuadPts_entries _ _ rhs s' 1 2 isT E
          isT).
Defined.

Lemma stretched (x : rat) :
  0 <= x -> 0 < \det (Kinematics_F (x%:M : 'M[rat]_2)).
Proof.
by move=> x0; rewrite /Kinematics_F -raddfD det_scalar exprn_gt0 // ltr_pwDl.
Qed.

Lemma updateLocalQPH_fixture_ok :
  is_ok (updateLocalQPH invmx law gradients 1 tt qph [:: ph_used]).
Proof. by rewrite /updateLocalQPH /= /update /= /updateData stretched. Qed.

Lemma updateLocalQPH_stores_gradients_witness :
  exists (scratch' : ScratchDataQPH rat 2 (seq rat))
         (lqph' : seq (PointHistory rat 2 unit)),
    [/\ updateLocalQPH invmx law gradients 1 tt qph [:: ph_used] =
        Ok (scratch', lqph'),
        size lqph' = 1%N,
        grad_u scratch' = gradients tt (solution qph) (nseq 1 0),
        [seq stored_F p | p <- lqph'] =
        [seq Some (1%:M + nth 0 (grad_u scratch') q) | q <- iota 0 1] &
        [seq omap (fun m => (nh_mu m, nh_rho m)) (material p) | p <- lqph'] =
        [seq omap (fun m => (nh_mu m, nh_rho m)) (material p)
        | p <- [:: ph_used]]].
Proof.
case E: (updateLocalQPH invmx law gradients 1 tt qph [:: ph_used])
  updateLocalQPH_fixture_ok => [[scratch' lqph']|] // _.
have [sz g F m] := updateLocalQPH_stores_gradients E.
by exists scratch', lqph'; split.
Defined.

Lemma updateLocalQPH_forgets_history_witness :
  updateLocalQPH invmx law gradients 1 tt qph [:: ph0] =
  updateLocalQPH invmx law gradients 1 tt qph [:: ph_used].
Proof. by apply: updateLocalQPH_forgets_history. Defined.

End Further.
